(** * Gravity squares: the physics step of [sdl-gravity-square.cc]

    A shallow embedding of the bouncing-squares simulation.  Every [double]
    of the program is a primitive binary64 [float], so additions,
    multiplications and comparisons round and compare exactly as the
    compiled program does (round to nearest even, IEEE comparisons that are
    false on NaN).  [Uint8] channels are integers reduced modulo 256, [int]s
    are integers, [Square*] pointers are object identities in a heap.

    [main] runs the multi-square functions only; the single-square ones
    ([update], [draw], [init_square], [reinit_square]) are dead code and are
    left out, as is [close], which releases what SDL holds. *)

From Stdlib Require Import ZArith Lia Bool Floats.
From stdpp Require Import base option list gmap.

Set Warnings "-inexact-float".
Set Default Proof Using "Type".

(** ** Doubles *)

Module Double.

Abbreviation double := float (only parsing).

(** [static_cast<double>(int)], also the implicit conversion of an [int]
    operand in mixed arithmetic.  Exact for every 32-bit [int]. *)
Definition of_int (z : Z) : double :=
  if (z <? 0)%Z then (- of_uint63 (Uint63.of_Z (- z)))%float
  else of_uint63 (Uint63.of_Z z).

(** The relational operators of C++ on doubles. *)
Definition le (a b : double) : bool := (a <=? b)%float.
Definition ge (a b : double) : bool := (b <=? a)%float.
Definition gt (a b : double) : bool := (b <? a)%float.
Definition lt (a b : double) : bool := (a <? b)%float.

(** [static_cast<int>(double)]: truncation toward zero; the conversion is
    undefined ([None]) for NaN, infinities and values outside [int]. *)
Definition to_int (d : double) : option Z :=
  let in_range (z : Z) :=
    if ((-2147483648 <=? z) && (z <=? 2147483647))%Z then Some z else None in
  match Prim2SF d with
  | S754_zero _ => Some 0%Z
  | S754_finite s m e =>
      let mag := if (0 <=? e)%Z then Z.shiftl (Z.pos m) e
                 else Z.shiftr (Z.pos m) (- e) in
      in_range (if s then (- mag)%Z else mag)
  | S754_infinity _ | S754_nan => None
  end.

End Double.

Import Double.

(** ** Vec2, Color, Square, World *)

Record Vec2 := mkVec2 { vx : double; vy : double }.

(** [Vec2() = default]. *)
Definition Vec2_default : Vec2 := mkVec2 0 0.

(** [Vec2::operator+]. *)
Definition Vec2_add (a b : Vec2) : Vec2 :=
  mkVec2 (vx a + vx b)%float (vy a + vy b)%float.

(** Conversion of an [int] to [Uint8]: reduction modulo 256. *)
Definition to_Uint8 (z : Z) : Z := (z mod 256)%Z.

Record Color := mkColor { red : Z; green : Z; blue : Z; alpha : Z }.

(** [Color() = default]: white, opaque. *)
Definition Color_default : Color := mkColor 255 255 255 255.

(** [Color(r, g, b)] delegates to [Color(r, g, b, 0xff)]. *)
Definition Color_rgba (r g b a : Z) : Color :=
  mkColor (to_Uint8 r) (to_Uint8 g) (to_Uint8 b) (to_Uint8 a).
Definition Color_rgb (r g b : Z) : Color := Color_rgba r g b 255.

Record Square := mkSquare {
  m_size : Vec2;
  m_position : Vec2;
  m_velocity : Vec2;
  m_color : Color
}.

(** [Square() = default] and the two other constructors. *)
Definition Square_default : Square :=
  mkSquare (mkVec2 10 10) (mkVec2 0 0) Vec2_default Color_default.
Definition Square_new (size pos v : Vec2) : Square :=
  mkSquare size pos v Color_default.
Definition Square_of_size (size : Vec2) : Square :=
  mkSquare size (mkVec2 0 0) Vec2_default Color_default.

Record World := mkWorld {
  gravity : double;
  damping : double;
  air_resistance : double
}.

(** [World() = default]. *)
Definition World_default : World := mkWorld 0.5 0.9 0.995.

(** ** The random source

    [get_random_int] draws from a [std::uniform_int_distribution] over a
    static [std::mt19937]; both belong to the C++ library.  The generator is
    taken as an interface: a state and a draw that honours the
    distribution's contract, a result within the closed range. *)

Class RandomSource (G : Type) := {
  uniform_int : Z -> Z -> G -> Z * G;
  uniform_int_range : forall low high g,
    (low <= high)%Z ->
    (low <= (uniform_int low high g).1 <= high)%Z
}.

(** A linear congruential generator, one inhabitant of the interface. *)
Module Lcg.

Definition step (s : Z) : Z := ((s * 1103515245 + 12345) mod 2147483648)%Z.

Definition draw (low high : Z) (s : Z) : Z * Z :=
  let s' := step s in
  ((low + s' mod (high - low + 1))%Z, s').

End Lcg.

(** ** Methods of [Square] as state transformers

    A method runs on one square and may draw from the generator. *)

Section Methods.

Context {G : Type} `{RandomSource G}.

Definition Method (A : Type) : Type := Square -> G -> A * Square * G.

#[global] Instance Method_ret : MRet Method :=
  fun A a sq g => (a, sq, g).
#[global] Instance Method_bind : MBind Method :=
  fun A B f m sq g => let '(a, sq', g') := m sq g in f a sq' g'.

Definition when (b : bool) (m : Method unit) : Method unit :=
  if b then m else mret tt.

(** Accessors. *)
Definition size : Method Vec2 := fun sq g => (m_size sq, sq, g).
Definition position : Method Vec2 := fun sq g => (m_position sq, sq, g).
Definition velocity : Method Vec2 := fun sq g => (m_velocity sq, sq, g).
Definition color : Method Color := fun sq g => (m_color sq, sq, g).

(** Mutators. *)
Definition modify (f : Square -> Square) : Method unit :=
  fun sq g => (tt, f sq, g).

Definition setSize (size : Vec2) : Method unit :=
  modify (fun sq => mkSquare size (m_position sq) (m_velocity sq) (m_color sq)).
Definition setPos (pos : Vec2) : Method unit :=
  modify (fun sq => mkSquare (m_size sq) pos (m_velocity sq) (m_color sq)).
Definition setPosX (x : double) : Method unit :=
  modify (fun sq => mkSquare (m_size sq) (mkVec2 x (vy (m_position sq)))
                             (m_velocity sq) (m_color sq)).
Definition setPosY (y : double) : Method unit :=
  modify (fun sq => mkSquare (m_size sq) (mkVec2 (vx (m_position sq)) y)
                             (m_velocity sq) (m_color sq)).
Definition setVelocity (v : Vec2) : Method unit :=
  modify (fun sq => mkSquare (m_size sq) (m_position sq) v (m_color sq)).
Definition setColor (c : Color) : Method unit :=
  modify (fun sq => mkSquare (m_size sq) (m_position sq) (m_velocity sq) c).

(** [m_velocity.y += gravity]. *)
Definition applyGravity (gravity : double) : Method unit :=
  modify (fun sq =>
    mkSquare (m_size sq) (m_position sq)
             (mkVec2 (vx (m_velocity sq)) (vy (m_velocity sq) + gravity)%float)
             (m_color sq)).

(** [m_velocity.x *= air_resistance]. *)
Definition applyAirResistance (air_resistance : double) : Method unit :=
  modify (fun sq =>
    mkSquare (m_size sq) (m_position sq)
             (mkVec2 (vx (m_velocity sq) * air_resistance)%float (vy (m_velocity sq)))
             (m_color sq)).

(** [m_velocity.x *= -damping]. *)
Definition dampX (damping : double) : Method unit :=
  modify (fun sq =>
    mkSquare (m_size sq) (m_position sq)
             (mkVec2 (vx (m_velocity sq) * - damping)%float (vy (m_velocity sq)))
             (m_color sq)).

(** [m_velocity.y *= -damping]. *)
Definition dampY (damping : double) : Method unit :=
  modify (fun sq =>
    mkSquare (m_size sq) (m_position sq)
             (mkVec2 (vx (m_velocity sq)) (vy (m_velocity sq) * - damping)%float)
             (m_color sq)).

(** [m_position.x += m_velocity.x; m_position.y += m_velocity.y]. *)
Definition updatePosition : Method unit :=
  modify (fun sq =>
    mkSquare (m_size sq)
             (mkVec2 (vx (m_position sq) + vx (m_velocity sq))%float
                     (vy (m_position sq) + vy (m_velocity sq))%float)
             (m_velocity sq) (m_color sq)).

(** ** Random draws *)

Definition get_random_int (low high : Z) (g : G) : Z * G :=
  uniform_int low high g.

(** [Color color {}] then the three channels, each an [int] stored into a
    [Uint8]; the alpha channel keeps its default. *)
Definition get_random_color (g : G) : Color * G :=
  let color := Color_default in
  let '(r, g1) := get_random_int 0 255 g in
  let color := mkColor (to_Uint8 r) (green color) (blue color) (alpha color) in
  let '(gr, g2) := get_random_int 0 255 g1 in
  let color := mkColor (red color) (to_Uint8 gr) (blue color) (alpha color) in
  let '(b, g3) := get_random_int 0 255 g2 in
  let color := mkColor (red color) (green color) (to_Uint8 b) (alpha color) in
  (color, g3).

(** The braced initialiser evaluates its two draws left to right. *)
Definition get_random_velocity (g : G) : Vec2 * G :=
  let '(x, g1) := get_random_int (-20) 20 g in
  let '(y, g2) := get_random_int (-20) 20 g1 in
  (mkVec2 (of_int x) (of_int y), g2).

Definition random_color : Method Color :=
  fun sq g => let '(c, g') := get_random_color g in (c, sq, g').

(** ** Screen constants *)

Definition gScreenWidth : Z := 640.
Definition gScreenHeight : Z := 480.
Definition gNumSquares : nat := 4.

(** ** The body of the loop of [update_squares], for one square *)

Definition update_square (gWorld : World) : Method unit :=
  applyGravity (gravity gWorld) ;;
  applyAirResistance (air_resistance gWorld) ;;
  updatePosition ;;
  p ← position; s ← size;
  let is_on_right_wall := ge (vx p) (of_int gScreenWidth - vx s)%float in
  p ← position;
  let is_on_left_wall := le (vx p) (of_int 0) in
  let is_on_wall := is_on_right_wall || is_on_left_wall in
  p ← position; s ← size;
  let is_on_floor := ge (vy p) (of_int gScreenHeight - vy s)%float in
  p ← position;
  let is_on_ceiling := le (vy p) (of_int 0) in
  when is_on_wall (
    when is_on_left_wall (setPosX (of_int 0)) ;;
    when is_on_right_wall (
      s ← size; setPosX (of_int gScreenWidth - vx s)%float) ;;
    dampX (damping gWorld) ;;
    c ← random_color; setColor c) ;;
  when is_on_floor (
    s ← size; setPosY (of_int gScreenHeight - vy s)%float ;;
    v ← velocity;
    if gt (vy v) 0.5 then
      dampY (damping gWorld) ;;
      c ← random_color; setColor c
    else
      v ← velocity; setVelocity (mkVec2 (vx v * 0.95)%float (of_int 0))) ;;
  when is_on_ceiling (
    setPosY (of_int 0) ;;
    dampY (damping gWorld) ;;
    c ← random_color; setColor c).

End Methods.

(** ** Globals, the free store and the SDL collaborator *)

(** A [Square*]: the identity of an allocated object.  Identities are handed
    out in allocation order and never reused, so a pointer names one object
    even when the allocator recycles an address. *)
Abbreviation ptr := nat (only parsing).

(** [SDL_Window*] and [SDL_Renderer*]: [None] is [nullptr]. *)
Definition handle := option nat.

Record Globals (G : Type) := mkGlobals {
  gWindow : handle;
  gRenderer : handle;
  gSquares : list ptr;
  gWorld : World;
  gBackgroundColor : Color;
  heap : gmap ptr Square;
  next_ptr : ptr;
  gen : G
}.
Arguments mkGlobals {G}.
Arguments gWindow {G}.
Arguments gRenderer {G}.
Arguments gSquares {G}.
Arguments gWorld {G}.
Arguments gBackgroundColor {G}.
Arguments heap {G}.
Arguments next_ptr {G}.
Arguments gen {G}.

(** What the SDL library answers during [init]. *)
Record SDL := mkSDL {
  SDL_Init_result : Z;
  SDL_CreateWindow_result : handle;
  SDL_CreateRenderer_result : handle
}.

Inductive Keycode := SDLK_SPACE | SDLK_other.
Inductive SDL_Event := SDL_QUIT | SDL_KEYDOWN (sym : Keycode) | SDL_other_event.

#[global] Instance Keycode_eq_dec : EqDecision Keycode.
Proof. solve_decision. Defined.
#[global] Instance SDL_Event_eq_dec : EqDecision SDL_Event.
Proof. solve_decision. Defined.

(** Calls made on the renderer. *)
Inductive RenderCall :=
| SetRenderDrawColor (r g b a : Z)
| RenderClear
| RenderFillRect (x y w h : option Z)
| RenderPresent.

Section Program.

Context {G : Type} `{RandomSource G}.

(** The globals before [main] runs: null handles, an empty vector, the
    default world and background, an empty free store. *)
Definition globals_at_start (seed : G) : Globals G :=
  mkGlobals None None [] World_default Color_default ∅ 0 seed.

Definition set_squares (st : Globals G) (ps : list ptr) (h : gmap ptr Square)
    (n : ptr) (g : G) : Globals G :=
  mkGlobals (gWindow st) (gRenderer st) ps (gWorld st) (gBackgroundColor st) h n g.

(** [init]: only the result of [SDL_Init] is tested. *)
Definition init (sdl : SDL) (st : Globals G) : Z * Globals G :=
  if negb (SDL_Init_result sdl =? 0)%Z then (0%Z, st)
  else
    (1%Z, mkGlobals (SDL_CreateWindow_result sdl) (SDL_CreateRenderer_result sdl)
                    (gSquares st) World_default Color_default
                    (heap st) (next_ptr st) (gen st)).

(** One turn of the loop of [init_squares]. *)
Definition init_one_square (st : Globals G) : Globals G :=
  let '(v, g1) := get_random_velocity (gen st) in
  let square := next_ptr st in
  let sq := Square_new (mkVec2 100 100)
              (mkVec2 (of_int (gScreenWidth ÷ 2)) (of_int (gScreenHeight ÷ 2))) v in
  let '(c, g2) := get_random_color g1 in
  let '(_, sq', g3) := setColor c sq g2 in
  set_squares st (gSquares st ++ [square]) (<[square := sq']> (heap st))
              (S (next_ptr st)) g3.

Fixpoint init_squares_from (n : nat) (st : Globals G) : Globals G :=
  match n with
  | O => st
  | S n' => init_squares_from n' (init_one_square st)
  end.

Definition init_squares (st : Globals G) : Globals G :=
  init_squares_from gNumSquares st.

(** The generator after [init_squares] has built [n] squares: each square
    takes the draws of its velocity, then those of its colour. *)
Fixpoint generator_after_squares (n : nat) (g : G) : G :=
  match n with
  | O => g
  | S n' => generator_after_squares n' (get_random_color (get_random_velocity g).2).2
  end.

Definition set_color (c : Color) : RenderCall :=
  SetRenderDrawColor (red c) (green c) (blue c) (alpha c).

(** [draw_squares] reads the squares and calls the renderer; reading
    through a pointer to a released object is undefined. *)
Fixpoint draw_each (ps : list ptr) (h : gmap ptr Square) : option (list RenderCall) :=
  match ps with
  | [] => Some []
  | square :: ps' =>
      sq ← h !! square;
      rest ← draw_each ps' h;
      Some (set_color (m_color sq)
            :: RenderFillRect (to_int (vx (m_position sq))) (to_int (vy (m_position sq)))
                              (to_int (vx (m_size sq))) (to_int (vy (m_size sq)))
            :: rest)
  end.

Definition draw_squares (st : Globals G) : option (list RenderCall) :=
  calls ← draw_each (gSquares st) (heap st);
  Some (set_color (gBackgroundColor st) :: RenderClear :: calls ++ [RenderPresent]).

(** [update_squares]: the loop over the vector of pointers; each turn
    rewrites the pointed object in place. *)
Fixpoint update_each (w : World) (ps : list ptr) (h : gmap ptr Square) (g : G)
    : option (gmap ptr Square * G) :=
  match ps with
  | [] => Some (h, g)
  | square :: ps' =>
      sq ← h !! square;
      let '(_, sq', g') := update_square w sq g in
      update_each w ps' (<[square := sq']> h) g'
  end.

Definition update_squares (st : Globals G) : option (Globals G) :=
  '(h, g) ← update_each (gWorld st) (gSquares st) (heap st) (gen st);
  Some (set_squares st (gSquares st) h (next_ptr st) g).

(** [delete] of every pointer of the vector; deleting an object twice is
    undefined. *)
Fixpoint delete_each (ps : list ptr) (h : gmap ptr Square) : option (gmap ptr Square) :=
  match ps with
  | [] => Some h
  | square :: ps' =>
      _ ← h !! square;
      delete_each ps' (delete square h)
  end.

Definition reinit_squares (st : Globals G) : option (Globals G) :=
  h ← delete_each (gSquares st) (heap st);
  Some (init_squares (set_squares st [] h (next_ptr st) (gen st))).

(** ** [main]

    The events pending at each turn of the loop come from outside: one list
    per frame.  The run is followed until the program returns, meets
    undefined behaviour, or the given frames are used up. *)

Inductive Outcome :=
| Returned (code : Z) (frames : nat)
| Undefined (frames : nat)
| Running (frames : nat) (st : Globals G).

(** The inner [while (SDL_PollEvent(&e) != 0)] loop. *)
Fixpoint poll_events (events : list SDL_Event) (quit : bool) (st : Globals G)
    : option (bool * Globals G) :=
  match events with
  | [] => Some (quit, st)
  | SDL_QUIT :: rest => poll_events rest true st
  | SDL_KEYDOWN SDLK_SPACE :: rest =>
      st' ← reinit_squares st; poll_events rest quit st'
  | _ :: rest => poll_events rest quit st
  end.

(** One turn of the main loop up to [SDL_Delay]. *)
Definition frame (events : list SDL_Event) (st : Globals G)
    : option (bool * list RenderCall * Globals G) :=
  '(quit, st1) ← poll_events events false st;
  calls ← draw_squares st1;
  st2 ← update_squares st1;
  Some (quit, calls, st2).

Fixpoint main_loop (frames : list (list SDL_Event)) (n : nat) (st : Globals G)
    : Outcome :=
  match frames with
  | [] => Running n st
  | events :: later =>
      match frame events st with
      | None => Undefined n
      | Some (quit, _, st') =>
          if quit then Returned 0 (S n) else main_loop later (S n) st'
      end
  end.

Definition main (sdl : SDL) (frames : list (list SDL_Event)) (seed : G) : Outcome :=
  let '(ok, st) := init sdl (globals_at_start seed) in
  if (ok =? 0)%Z then Returned 1 0
  else main_loop frames 0 (init_squares st).

End Program.

(** ** The update as the specification words it

    Integration first, then one classification of the integrated square, then
    the three corrections in turn, each looking only at that classification. *)

Record Contacts := mkContacts {
  onLeftWall : bool;
  onRightWall : bool;
  onFloor : bool;
  onCeiling : bool
}.

Definition onWall (c : Contacts) : bool := onRightWall c || onLeftWall c.

Section Phases.

Context {G : Type} `{RandomSource G}.

(** Steps 1 to 3: gravity, air resistance, position += velocity. *)
Definition integrate (w : World) (sq : Square) : Square :=
  let v := mkVec2 (vx (m_velocity sq) * air_resistance w)%float
                  (vy (m_velocity sq) + gravity w)%float in
  mkSquare (m_size sq)
           (mkVec2 (vx (m_position sq) + vx v)%float (vy (m_position sq) + vy v)%float)
           v (m_color sq).

(** Step 4: the boundary classification of a position and a size. *)
Definition classify (sq : Square) : Contacts :=
  mkContacts
    (le (vx (m_position sq)) 0)
    (ge (vx (m_position sq)) (640 - vx (m_size sq))%float)
    (ge (vy (m_position sq)) (480 - vy (m_size sq))%float)
    (le (vy (m_position sq)) 0).

Definition recolor (sq : Square) (g : G) : Square * G :=
  let '(c, g') := get_random_color g in
  (mkSquare (m_size sq) (m_position sq) (m_velocity sq) c, g').

(** Step 5. *)
Definition wall_correction (w : World) (c : Contacts) (sq : Square) (g : G)
    : Square * G :=
  if onWall c then
    let x0 := if onLeftWall c then 0%float else vx (m_position sq) in
    let x1 := if onRightWall c then (640 - vx (m_size sq))%float else x0 in
    recolor (mkSquare (m_size sq) (mkVec2 x1 (vy (m_position sq)))
                      (mkVec2 (vx (m_velocity sq) * - damping w)%float (vy (m_velocity sq)))
                      (m_color sq)) g
  else (sq, g).

(** Step 6. *)
Definition floor_correction (w : World) (c : Contacts) (sq : Square) (g : G)
    : Square * G :=
  if onFloor c then
    let pos := mkVec2 (vx (m_position sq)) (480 - vy (m_size sq))%float in
    if gt (vy (m_velocity sq)) 0.5 then
      recolor (mkSquare (m_size sq) pos
                        (mkVec2 (vx (m_velocity sq)) (vy (m_velocity sq) * - damping w)%float)
                        (m_color sq)) g
    else
      (mkSquare (m_size sq) pos (mkVec2 (vx (m_velocity sq) * 0.95)%float 0) (m_color sq), g)
  else (sq, g).

(** Step 7. *)
Definition ceiling_correction (w : World) (c : Contacts) (sq : Square) (g : G)
    : Square * G :=
  if onCeiling c then
    recolor (mkSquare (m_size sq) (mkVec2 (vx (m_position sq)) 0)
                      (mkVec2 (vx (m_velocity sq)) (vy (m_velocity sq) * - damping w)%float)
                      (m_color sq)) g
  else (sq, g).

Definition update_in_phases (w : World) (sq : Square) (g : G) : Square * G :=
  let sq0 := integrate w sq in
  let c := classify sq0 in
  let '(sq1, g1) := wall_correction w c sq0 g in
  let '(sq2, g2) := floor_correction w c sq1 g1 in
  ceiling_correction w c sq2 g2.

End Phases.

(** ** What a loop turn leaves *)

Section Turn.

Context {G : Type} `{RandomSource G}.

(** The square a loop turn leaves, and the generator it leaves. *)
Definition updated (w : World) (sq : Square) (g : G) : Square :=
  (update_square w sq g).1.2.
Definition generator_after (w : World) (sq : Square) (g : G) : G :=
  (update_square w sq g).2.

End Turn.

(** ** Invariants of the collection *)

Definition is_byte (z : Z) : Prop := (0 <= z <= 255)%Z.

Definition opaque_rgba (c : Color) : Prop :=
  is_byte (red c) /\ is_byte (green c) /\ is_byte (blue c) /\ alpha c = 255%Z.

Definition in_velocity_range (v : Vec2) : Prop :=
  le (-20) (vx v) = true /\ le (vx v) 20 = true
  /\ le (-20) (vy v) = true /\ le (vy v) 20 = true.

(** What [init_squares] builds: a 100x100 square at the centre of the screen
    with a drawn velocity and a drawn colour. *)
Definition freshly_built (sq : Square) : Prop :=
  m_size sq = mkVec2 100 100
  /\ m_position sq = mkVec2 320 240
  /\ in_velocity_range (m_velocity sq)
  /\ opaque_rgba (m_color sq).

(** What every square of the collection keeps for its lifetime. *)
Definition body_invariant (sq : Square) : Prop :=
  m_size sq = mkVec2 100 100 /\ opaque_rgba (m_color sq).

(** What a loop turn may do to a square: the size stays, an opaque colour
    stays opaque. *)
Definition evolves (sq sq' : Square) : Prop :=
  m_size sq' = m_size sq
  /\ (opaque_rgba (m_color sq) -> opaque_rgba (m_color sq')).

Section Invariants.

Context {G : Type} `{RandomSource G}.

(** The vector holds distinct pointers to live objects, and the allocator
    has handed out every live identity. *)
Definition well_formed (st : Globals G) : Prop :=
  NoDup (gSquares st)
  /\ (forall p, p ∈ gSquares st -> is_Some (heap st !! p))
  /\ (forall p, is_Some (heap st !! p) -> p < next_ptr st).

Definition collection_invariant (st : Globals G) : Prop :=
  well_formed st
  /\ (forall p, p ∈ gSquares st ->
        exists sq, heap st !! p = Some sq /\ body_invariant sq).

(** How the free store may differ between two points of a run: identities
    are not reused, a released object stays released, a live one evolves. *)
Definition heap_step (st st' : Globals G) : Prop :=
  next_ptr st <= next_ptr st'
  /\ (forall p, p < next_ptr st ->
        match heap st !! p with
        | Some sq => forall sq', heap st' !! p = Some sq' -> evolves sq sq'
        | None => heap st' !! p = None
        end).

(** The states at the top of the loop of [main]. *)
Inductive reachable : Globals G -> Prop :=
| reach_init sdl seed st :
    init sdl (globals_at_start seed) = (1%Z, st) ->
    reachable (init_squares st)
| reach_frame st events quit calls st' :
    reachable st ->
    frame events st = Some (quit, calls, st') ->
    reachable st'.

End Invariants.

(** ** Numbers among the doubles *)

(** A specification float that is a number, and one that is finite. *)
Definition SFnum (x : spec_float) : bool :=
  match x with S754_nan => false | _ => true end.
Definition SFfin (x : spec_float) : bool :=
  match x with S754_zero _ | S754_finite _ _ _ => true | _ => false end.

Definition SFnz (x : spec_float) : bool :=
  match x with S754_finite _ _ _ => true | _ => false end.

(** [d == d]: the double is not a NaN. *)
Definition is_number (d : double) : bool := (d =? d)%float.

(** ** Further invariants *)

(** A 100x100 square that lies within the screen and whose velocity
    components are numbers. *)
Definition on_screen (sq : Square) : Prop :=
  m_size sq = mkVec2 100 100
  /\ le 0 (vx (m_position sq)) = true
  /\ le (vx (m_position sq)) (of_int gScreenWidth - vx (m_size sq)) = true
  /\ le 0 (vy (m_position sq)) = true
  /\ le (vy (m_position sq)) (of_int gScreenHeight - vy (m_size sq)) = true
  /\ is_number (vx (m_velocity sq)) = true
  /\ is_number (vy (m_velocity sq)) = true.

Section ScreenInvariants.

Context {G : Type} `{RandomSource G}.

(** The free store holds the squares of the collection and nothing else,
    and the collection has its fixed number of squares. *)
Definition exact_heap (st : Globals G) : Prop :=
  length (gSquares st) = gNumSquares
  /\ (forall p, is_Some (heap st !! p) <-> p ∈ gSquares st).

(** The world is the default one and every allocated square is on screen. *)
Definition screen_invariant (st : Globals G) : Prop :=
  gWorld st = World_default
  /\ map_Forall (fun _ sq => on_screen sq) (heap st).

Definition full_invariant (st : Globals G) : Prop :=
  collection_invariant st /\ exact_heap st /\ screen_invariant st.

End ScreenInvariants.


(** The number of SPACE key presses among the events of a frame. *)
Definition resets (events : list SDL_Event) : nat :=
  length (filter (fun e => e = SDL_KEYDOWN SDLK_SPACE) events).

(** Two squares that differ at most in colour. *)
Definition same_motion (sq sq' : Square) : Prop :=
  m_size sq = m_size sq' /\ m_position sq = m_position sq'
  /\ m_velocity sq = m_velocity sq'.

(** ** The single-square program

    [update], [draw], [init_square] and [reinit_square] work on the global
    pointer [gSquare], null when the program starts; [close] releases it. *)

Record Single (G : Type) := mkSingle {
  multi : Globals G;
  gSquare : option nat
}.
Arguments mkSingle {G}.
Arguments multi {G}.
Arguments gSquare {G}.

Section SingleSquare.

Context {G : Type} `{RandomSource G}.

(** [init_square]: a new square, assigned to [gSquare]; the object the
    pointer held before is not released. *)
Definition init_square (s : Single G) : Single G :=
  let st := multi s in
  let '(v, g1) := get_random_velocity (gen st) in
  let square := next_ptr st in
  let sq := Square_new (mkVec2 100 100)
              (mkVec2 (of_int (gScreenWidth ÷ 2)) (of_int (gScreenHeight ÷ 2))) v in
  let '(c, g2) := get_random_color g1 in
  let '(_, sq', g3) := setColor c sq g2 in
  mkSingle (set_squares st (gSquares st) (<[square := sq']> (heap st))
                        (S (next_ptr st)) g3)
           (Some square).

(** The body of [update], on the object [gSquare] points to. *)
Definition update_gSquare (gWorld : World) : Method unit :=
  applyGravity (gravity gWorld) ;;
  applyAirResistance (air_resistance gWorld) ;;
  updatePosition ;;
  p ← position; s ← size;
  let is_on_right_wall := ge (vx p) (of_int gScreenWidth - vx s)%float in
  p ← position;
  let is_on_left_wall := le (vx p) (of_int 0) in
  let is_on_wall := is_on_right_wall || is_on_left_wall in
  p ← position; s ← size;
  let is_on_floor := ge (vy p) (of_int gScreenHeight - vy s)%float in
  p ← position;
  let is_on_ceiling := le (vy p) (of_int 0) in
  when is_on_wall (
    when is_on_left_wall (setPosX (of_int 0)) ;;
    when is_on_right_wall (
      s ← size; setPosX (of_int gScreenWidth - vx s)%float) ;;
    dampX (damping gWorld) ;;
    c ← random_color; setColor c) ;;
  when is_on_floor (
    s ← size; setPosY (of_int gScreenHeight - vy s)%float ;;
    v ← velocity;
    if gt (vy v) 0.5 then
      dampY (damping gWorld) ;;
      c ← random_color; setColor c
    else
      v ← velocity; setVelocity (mkVec2 (vx v * 0.95)%float (of_int 0))) ;;
  when is_on_ceiling (
    setPosY (of_int 0) ;;
    dampY (damping gWorld) ;;
    c ← random_color; setColor c).

(** [update]: undefined through a null or dangling [gSquare]. *)
Definition update (s : Single G) : option (Single G) :=
  let st := multi s in
  square ← gSquare s;
  sq ← heap st !! square;
  let '(_, sq', g') := update_gSquare (gWorld st) sq (gen st) in
  Some (mkSingle (set_squares st (gSquares st) (<[square := sq']> (heap st))
                              (next_ptr st) g')
                 (gSquare s)).

(** [draw]. *)
Definition draw (s : Single G) : option (list RenderCall) :=
  let st := multi s in
  square ← gSquare s;
  sq ← heap st !! square;
  Some [set_color (gBackgroundColor st); RenderClear;
        set_color (m_color sq);
        RenderFillRect (to_int (vx (m_position sq))) (to_int (vy (m_position sq)))
                       (to_int (vx (m_size sq))) (to_int (vy (m_size sq)));
        RenderPresent].

(** [delete] of one pointer: nothing for a null pointer, undefined for a
    pointer to an object already released. *)
Definition delete_ptr (p : option nat) (h : gmap nat Square) : option (gmap nat Square) :=
  match p with
  | None => Some h
  | Some square => _ ← h !! square; Some (delete square h)
  end.

(** [reinit_square]. *)
Definition reinit_square (s : Single G) : option (Single G) :=
  let st := multi s in
  h ← delete_ptr (gSquare s) (heap st);
  Some (init_square
          (mkSingle (set_squares st (gSquares st) h (next_ptr st) (gen st)) (gSquare s))).

(** [close]: the renderer and the window are destroyed, [gSquare] is
    released and keeps its value; the squares of [gSquares] are not
    released. *)
Definition close (s : Single G) : option (Single G) :=
  let st := multi s in
  h ← delete_ptr (gSquare s) (heap st);
  Some (mkSingle (set_squares st (gSquares st) h (next_ptr st) (gen st)) (gSquare s)).

(** The state in which [main] returns 0, after [close]: [gSquare] is never
    assigned on that path. *)
Fixpoint main_loop_exit (frames : list (list SDL_Event)) (st : Globals G)
    : option (Globals G) :=
  match frames with
  | [] => None
  | events :: later =>
      match frame events st with
      | None => None
      | Some (quit, _, st') => if quit then Some st' else main_loop_exit later st'
      end
  end.

Definition main_exit (sdl : SDL) (frames : list (list SDL_Event)) (seed : G)
    : option (Single G) :=
  let '(ok, st) := init sdl (globals_at_start seed) in
  if (ok =? 0)%Z then None
  else
    st' ← main_loop_exit frames (init_squares st);
    close (mkSingle st' None).

End SingleSquare.

(** ** Proof steps *)

(** Replaces a comparison of constants by its value. *)
Ltac decide_closed t :=
  let v := eval vm_compute in t in
  lazymatch v with
  | true => change t with true
  | false => change t with false
  end.

(** Splits a goal on every comparison and every colour draw it meets;
    comparisons of constants are evaluated. *)
Ltac split_contacts :=
  repeat first
    [ progress cbn
    | match goal with
      | |- context [PrimFloat.leb ?a ?b] =>
          first [decide_closed (PrimFloat.leb a b) | destruct (PrimFloat.leb a b) eqn:?]
      | |- context [PrimFloat.ltb ?a ?b] =>
          first [decide_closed (PrimFloat.ltb a b) | destruct (PrimFloat.ltb a b) eqn:?]
      | |- context [get_random_color ?g0] => destruct (get_random_color g0)
      end ].

(** Runs the methods of a goal down to their effect on the square. *)
Ltac run_methods :=
  unfold update_square, when, random_color, applyGravity, applyAirResistance,
    updatePosition, dampX, dampY, setPosX, setPosY, setVelocity, setColor,
    position, size, velocity, modify, mbind, mret, Method_bind, Method_ret;
  cbn.

(** Names the colour and the generator of every draw a goal meets. *)
Ltac draw_colors :=
  repeat match goal with
         | |- context [get_random_color ?g0] =>
             destruct (get_random_color g0) as [? ?]
         end;
  cbn [m_size m_position m_velocity m_color vx vy fst snd].

(** Names the results of the draws of a goal, one at a time, in the goal and
    in the hypotheses. *)
Ltac name_draws :=
  repeat (match goal with
          | |- context [get_random_color ?g0] =>
              destruct (get_random_color g0) as [? ?]
          end;
          cbn [m_size m_position m_velocity m_color vx vy fst snd] in *).

(** Proves that the frames of a literal list hold no quit event. *)
Ltac no_quit :=
  repeat constructor;
  let Hin := fresh in
  intros Hin;
  repeat (apply elem_of_cons in Hin as [Hin|Hin]; [discriminate|]);
  inversion Hin.

(** * Facts *)

(** ** The linear congruential generator is a random source *)

Module LcgFacts.

Lemma draw_range low high s :
  (low <= high)%Z -> (low <= (Lcg.draw low high s).1 <= high)%Z.
Proof.
  intros Hle. unfold Lcg.draw. cbn [fst].
  pose proof (Z.mod_pos_bound (Lcg.step s) (high - low + 1)) as Hb.
  lia.
Qed.

#[global] Instance source : RandomSource Z :=
  {| uniform_int := Lcg.draw; uniform_int_range := draw_range |}.

End LcgFacts.

(** ** Facts about double comparisons and additions *)

Module DoubleFacts.

Lemma SFcompare_swap x y :
  SFcompare y x = option_map CompOpp (SFcompare x y).
Proof.
  destruct x as [sx|sx| |sx mx ex], y as [sy|sy| |sy my ey]; cbn;
    try (destruct sx; reflexivity); try (destruct sy; reflexivity);
    try (destruct sx, sy; reflexivity).
  f_equal. destruct sx, sy; try reflexivity.
  all: rewrite (Z.compare_antisym ex ey);
    destruct (ex ?= ey)%Z; cbn; try reflexivity;
    change (Pos.compare_cont Eq my mx) with (my ?= mx)%positive;
    change (Pos.compare_cont Eq mx my) with (mx ?= my)%positive;
    rewrite (Pos.compare_antisym mx my); reflexivity.
Qed.

(** [a <= b] excludes [a > b]. *)
Lemma le_not_gt a b : le a b = true -> gt a b = false.
Proof.
  unfold le, gt. rewrite leb_spec, ltb_spec. unfold SFleb, SFltb.
  rewrite (SFcompare_swap (Prim2SF a) (Prim2SF b)).
  destruct (SFcompare (Prim2SF a) (Prim2SF b)) as [[]|]; cbn; congruence.
Qed.

(** [a < b] excludes [a >= b]. *)
Lemma lt_not_ge a b : lt a b = true -> ge a b = false.
Proof.
  unfold lt, ge. rewrite leb_spec, ltb_spec. unfold SFleb, SFltb.
  rewrite (SFcompare_swap (Prim2SF a) (Prim2SF b)).
  destruct (SFcompare (Prim2SF a) (Prim2SF b)) as [[]|]; cbn; congruence.
Qed.

(** Adding zero to a positive double gives it back. *)
Lemma add_zero_pos x : lt 0 x = true -> (x + 0)%float = x.
Proof.
  unfold lt. intros Hx. apply Prim2SF_inj. rewrite add_spec.
  rewrite ltb_spec in Hx.
  change (Prim2SF 0) with (S754_zero false) in *.
  destruct (Prim2SF x) as [s|s| |s m e]; try reflexivity; discriminate.
Qed.

Lemma SFmul_comm p e x y : SFmul p e x y = SFmul p e y x.
Proof.
  destruct x as [sx|sx| |sx mx ex], y as [sy|sy| |sy my ey]; cbn;
    try reflexivity; try (rewrite (xorb_comm sx sy); reflexivity).
  rewrite (xorb_comm sx sy), (Pos.mul_comm mx my), (Z.add_comm ex ey).
  reflexivity.
Qed.

(** The product of two doubles does not depend on their order. *)
Lemma mul_comm a b : (a * b = b * a)%float.
Proof. apply Prim2SF_inj. rewrite !mul_spec. apply SFmul_comm. Qed.

(** *** Rounding of sums: the sum of two positive doubles *)

Local Open Scope Z_scope.

Lemma digits2_pos_bounds p :
  2 ^ (Zpos (digits2_pos p) - 1) <= Zpos p < 2 ^ Zpos (digits2_pos p).
Proof.
  induction p as [p IH|p IH|]; cbn [digits2_pos].
  - rewrite Pos2Z.inj_succ.
    replace (Z.succ (Zpos (digits2_pos p)) - 1) with (Z.succ (Zpos (digits2_pos p) - 1)) by lia.
    rewrite !Z.pow_succ_r by lia. lia.
  - rewrite Pos2Z.inj_succ.
    replace (Z.succ (Zpos (digits2_pos p)) - 1) with (Z.succ (Zpos (digits2_pos p) - 1)) by lia.
    rewrite !Z.pow_succ_r by lia. lia.
  - cbn. lia.
Qed.

(** The number of digits is determined by the bracket. *)
Lemma digits2_pos_unique p d :
  2 ^ (d - 1) <= Zpos p < 2 ^ d -> Zpos (digits2_pos p) = d.
Proof.
  intros [Hlo Hhi]. pose proof (digits2_pos_bounds p) as [Hlo' Hhi'].
  assert (0 < d).
  { destruct (Z_lt_le_dec 0 d) as [?|Hd]; [assumption|].
    assert (2 ^ d <= 2 ^ 0) by (destruct (Z_lt_le_dec d 0); [rewrite Z.pow_neg_r by lia; cbn; lia| apply Z.pow_le_mono_r; lia]).
    cbn in *. lia. }
  destruct (Z_lt_le_dec (Zpos (digits2_pos p)) d) as [Hlt|Hge].
  - assert (2 ^ Zpos (digits2_pos p) <= 2 ^ (d - 1)) by (apply Z.pow_le_mono_r; lia). lia.
  - destruct (Z_lt_le_dec d (Zpos (digits2_pos p))) as [Hlt|Hle]; [|lia].
    assert (2 ^ d <= 2 ^ (Zpos (digits2_pos p) - 1)) by (apply Z.pow_le_mono_r; lia). lia.
Qed.

Lemma digits2_pos_mono p q : (p <= q)%positive -> Zpos (digits2_pos p) <= Zpos (digits2_pos q).
Proof.
  intros Hpq. pose proof (digits2_pos_bounds p) as [Hlo _].
  pose proof (digits2_pos_bounds q) as [_ Hhi].
  destruct (Z_lt_le_dec (Zpos (digits2_pos q)) (Zpos (digits2_pos p))) as [Hlt|?]; [|assumption].
  assert (2 ^ Zpos (digits2_pos q) <= 2 ^ (Zpos (digits2_pos p) - 1)) by (apply Z.pow_le_mono_r; lia).
  lia.
Qed.

Lemma shr_1_m mrs : 0 <= shr_m mrs -> shr_m (shr_1 mrs) = shr_m mrs / 2.
Proof.
  destruct mrs as [m r s]. cbn [shr_m]. intros Hm.
  destruct m as [|[p|p|]|p]; cbn [shr_1 shr_m].
  - reflexivity.
  - rewrite Pos2Z.inj_xI. apply Z.div_unique with (r := 1); lia.
  - rewrite Pos2Z.inj_xO. apply Z.div_unique with (r := 0); lia.
  - reflexivity.
  - lia.
Qed.

Lemma iter_shr_1_m n mrs :
  0 <= shr_m mrs -> shr_m (SpecFloat.iter_pos shr_1 n mrs) = shr_m mrs / 2 ^ Zpos n.
Proof.
  revert mrs. induction n as [n IH|n IH|]; intros mrs Hm; cbn [SpecFloat.iter_pos].
  - assert (H1 : 0 <= shr_m (shr_1 mrs)) by (rewrite shr_1_m by lia; apply Z.div_pos; lia).
    assert (H2 : 0 <= shr_m (SpecFloat.iter_pos shr_1 n (shr_1 mrs))) by (rewrite IH by lia; apply Z.div_pos; lia).
    rewrite IH, IH, shr_1_m by lia.
    rewrite !Z.div_div by lia. f_equal.
    rewrite <- Z.pow_add_r, <- Z.pow_succ_r by lia. f_equal. lia.
  - assert (H2 : 0 <= shr_m (SpecFloat.iter_pos shr_1 n mrs)) by (rewrite IH by lia; apply Z.div_pos; lia).
    rewrite IH, IH by lia.
    rewrite !Z.div_div by lia. f_equal.
    rewrite <- Z.pow_add_r by lia. f_equal. lia.
  - rewrite shr_1_m by lia. reflexivity.
Qed.

Lemma shr_m_e m e n :
  0 <= m ->
  let r := shr (Build_shr_record m false false) e n in
  shr_m (fst r) = m / 2 ^ Z.max 0 n /\ snd r = e + Z.max 0 n.
Proof.
  intros Hm. unfold shr. destruct n as [|p|p]; cbn [fst snd shr_m].
  - rewrite Z.div_1_r. lia.
  - rewrite iter_shr_1_m by (cbn; lia). cbn [shr_m].
    replace (Z.max 0 (Zpos p)) with (Zpos p) by lia. lia.
  - replace (Z.max 0 (Zneg p)) with 0 by lia. rewrite Z.div_1_r. lia.
Qed.

Lemma round_nearest_even_cases m l :
  round_nearest_even m l = m \/ round_nearest_even m l = m + 1.
Proof.
  destruct l as [|[]]; cbn; auto. destruct (Z.even m); auto.
Qed.

Lemma iter_xO m d : Zpos (Pos.iter xO m d) = Zpos m * 2 ^ Zpos d.
Proof.
  revert m. induction d as [|d IH] using Pos.peano_ind; intros m.
  - cbn. lia.
  - rewrite Pos.iter_succ, Pos2Z.inj_xO, IH, Pos2Z.inj_succ, Z.pow_succ_r by lia. lia.
Qed.

Lemma shl_align_spec mx ex ex' :
  let r := shl_align mx ex ex' in
  snd r = Z.min ex ex' /\ Zpos (fst r) = Zpos mx * 2 ^ (ex - snd r).
Proof.
  unfold shl_align. destruct (ex' - ex) as [|d|d] eqn:E; cbn [fst snd].
  - split; [lia|]. rewrite Z.sub_diag. cbn. lia.
  - split; [lia|]. rewrite Z.sub_diag. cbn. lia.
  - split; [lia|]. rewrite iter_xO. f_equal. f_equal. lia.
Qed.

Lemma fexp_ge_emin k : -1074 <= fexp prec emax k.
Proof. unfold fexp, emin, prec, emax. lia. Qed.

Lemma fexp_mono k k' : k <= k' -> fexp prec emax k <= fexp prec emax k'.
Proof. unfold fexp, emin, prec, emax. lia. Qed.

Lemma pow2_le_digits p k :
  0 <= k -> Zpos (digits2_pos p) - 53 = k -> 2 ^ k * 2 ^ 52 <= Zpos p.
Proof.
  intros Hk Hd. pose proof (digits2_pos_bounds p) as [Hlo _].
  rewrite <- Z.pow_add_r by lia.
  replace (k + 52) with (Zpos (digits2_pos p) - 1) by lia. exact Hlo.
Qed.

Lemma div_pow2_ge_1 a n : 0 <= n -> 2 ^ n <= a -> 1 <= a / 2 ^ n.
Proof.
  intros Hn Ha. apply Z.div_le_lower_bound; [apply Z.pow_pos_nonneg; lia|lia].
Qed.

Lemma binary_round_aux_lower (M1 : positive) (e1 : Z) (m : positive) (e : Z) :
  e1 <= e ->
  Zpos m * 2 ^ (e - e1) <= Zpos M1 ->
  fexp prec emax (Zpos (digits2_pos m) + e) = e ->
  let r := binary_round_aux prec emax false (Zpos M1) e1 loc_Exact in
  r = S754_infinity false \/
  exists m'' e'',
    r = S754_finite false m'' e'' /\ (e < e'' \/ (e = e'' /\ (m <= m'')%positive)).
Proof.
  intros He1 Hval Hcan.
  set (d1 := Zpos (digits2_pos M1)).
  set (t := fexp prec emax (d1 + e1)).
  assert (Hpow : 0 < 2 ^ (e - e1)) by (apply Z.pow_pos_nonneg; lia).
  assert (HA : Zpos (digits2_pos m) + e <= d1 + e1).
  { pose proof (digits2_pos_bounds m) as [Hlo _].
    pose proof (digits2_pos_bounds M1) as [_ Hhi]. fold d1 in Hhi.
    destruct (Z_lt_le_dec (d1 + e1) (Zpos (digits2_pos m) + e)) as [Hlt|?]; [|assumption].
    assert (2 ^ d1 <= 2 ^ (Zpos (digits2_pos m) - 1 + (e - e1)))
      by (apply Z.pow_le_mono_r; lia).
    rewrite Z.pow_add_r in H by lia.
    assert (2 ^ (Zpos (digits2_pos m) - 1) * 2 ^ (e - e1) <= Zpos m * 2 ^ (e - e1))
      by (apply Z.mul_le_mono_nonneg_r; lia).
    lia. }
  assert (HB : e <= t) by (rewrite <- Hcan; apply fexp_mono; exact HA).
  assert (Hemin : -1074 <= e) by (rewrite <- Hcan; apply fexp_ge_emin).
  set (n := t - e1).
  assert (Hn : 0 <= n) by (unfold n; lia).
  (* first shift *)
  assert (HC : 2 ^ n <= Zpos M1).
  { unfold n, t, fexp, emin, prec, emax in *.
    destruct (Z.max_spec (d1 + e1 - 53) (3 - 1024 - 53)) as [[_ Hmax]|[_ Hmax]];
      rewrite Hmax in *.
    - assert (e = -1074) as -> by lia.
      assert (1 * 2 ^ (-1074 - e1) <= Zpos m * 2 ^ (-1074 - e1))
        by (apply Z.mul_le_mono_nonneg_r; lia).
      replace (3 - 1024 - 53 - e1) with (-1074 - e1) by lia. lia.
    - replace (d1 + e1 - 53 - e1) with (d1 - 53) by lia.
      destruct (Z_lt_le_dec (d1 - 53) 0) as [Hneg|Hpos].
      + rewrite Z.pow_neg_r by lia. lia.
      + pose proof (pow2_le_digits M1 (d1 - 53) Hpos eq_refl).
        assert (0 < 2 ^ (d1 - 53)) by (apply Z.pow_pos_nonneg; lia). nia. }
  unfold binary_round_aux, shr_fexp. cbn [shr_record_of_loc Zdigits2].
  fold d1. fold t. fold n.
  pose proof (shr_m_e (Zpos M1) e1 n ltac:(lia)) as [Hm' He'].
  destruct (shr {| shr_m := Zpos M1; shr_r := false; shr_s := false |} e1 n)
    as [mrs' e'].
  cbn [fst snd] in Hm', He'.
  replace (Z.max 0 n) with n in * by lia.
  assert (He't : e' = t) by (unfold n in He'; lia).
  assert (Hm'1 : 1 <= shr_m mrs') by (rewrite Hm'; apply div_pow2_ge_1; assumption).
  assert (HD : e = t -> Zpos m <= shr_m mrs').
  { intros Het. rewrite Hm'. unfold n. rewrite <- Het.
    apply Z.div_le_lower_bound; [assumption|lia]. }
  assert (Hmr : shr_m mrs' <= round_nearest_even (shr_m mrs') (loc_of_shr_record mrs'))
    by (destruct (round_nearest_even_cases (shr_m mrs') (loc_of_shr_record mrs'))
          as [-> | ->]; lia).
  set (mr := round_nearest_even (shr_m mrs') (loc_of_shr_record mrs')) in *.
  clearbody mr.
  (* second shift *)
  destruct mr as [|pmr|pmr]; try lia.
  cbn [shr_record_of_loc Zdigits2].
  set (d2 := Zpos (digits2_pos pmr)).
  set (n2 := fexp prec emax (d2 + e') - e').
  pose proof (shr_m_e (Zpos pmr) e' n2 ltac:(lia)) as [Hm'' He''].
  destruct (shr {| shr_m := Zpos pmr; shr_r := false; shr_s := false |} e' n2)
    as [mrs'' e''].
  cbn [fst snd] in Hm'', He''.
  assert (Hm''1 : 1 <= shr_m mrs'' /\ (e < e'' \/ (e = e'' /\ Zpos m <= shr_m mrs''))).
  { destruct (Z_lt_le_dec 0 n2) as [Hpos|Hneg].
    - replace (Z.max 0 n2) with n2 in * by lia.
      split; [|lia].
      rewrite Hm''. apply div_pow2_ge_1; [lia|].
      assert (Hn2 : n2 = d2 - 53).
      { unfold n2, fexp, emin, prec, emax in *. lia. }
      pose proof (pow2_le_digits pmr n2 ltac:(lia) ltac:(fold d2; lia)).
      assert (0 < 2 ^ n2) by (apply Z.pow_pos_nonneg; lia). nia.
    - replace (Z.max 0 n2) with 0 in * by lia.
      rewrite Z.div_1_r in Hm''. rewrite Hm''. split; [lia|].
      destruct (Z_lt_le_dec e t) as [Hlt|Hge]; [left; lia|].
      right. split; [lia|]. assert (e = t) by lia. specialize (HD H). lia. }
  destruct Hm''1 as [Hm''1 Hord].
  destruct (shr_m mrs'') as [|pm''|pm'']; try lia.
  destruct (e'' <=? emax - prec); [right|left; reflexivity].
  exists pm'', e''. split; [reflexivity|].
  destruct Hord as [?|[? ?]]; [left; assumption|right; split; [assumption|lia]].
Qed.

Lemma SFadd_pos_lower (m : positive) (e : Z) (mh : positive) (eh : Z) :
  fexp prec emax (Zpos (digits2_pos m) + e) = e ->
  let r := SFadd prec emax (S754_finite false m e) (S754_finite false mh eh) in
  r = S754_infinity false \/
  exists m'' e'',
    r = S754_finite false m'' e'' /\ (e < e'' \/ (e = e'' /\ (m <= m'')%positive)).
Proof.
  intros Hcan. unfold SFadd. cbn [cond_Zopp].
  set (ez := Z.min e eh).
  pose proof (shl_align_spec m e ez) as [Hsa Hfa].
  pose proof (shl_align_spec mh eh ez) as [Hsb Hfb].
  destruct (shl_align m e ez) as [a ea]. destruct (shl_align mh eh ez) as [b eb].
  cbn [fst snd] in *.
  change (Zpos a + Zpos b) with (Zpos (a + b)).
  unfold binary_normalize, binary_round.
  set (tz := fexp prec emax (Zpos (digits2_pos (a + b)) + ez)).
  pose proof (shl_align_spec (a + b) ez tz) as [Hsz Hfz].
  destruct (shl_align (a + b) ez tz) as [mz ez'].
  cbn [fst snd] in *.
  apply binary_round_aux_lower; [lia| |exact Hcan].
  rewrite Hfz, Pos2Z.inj_add, Hfa.
  assert (Hea : ea = ez) by (unfold ez in *; lia).
  rewrite Hea.
  replace (e - ez') with ((e - ez) + (ez - ez')) by lia.
  rewrite Z.pow_add_r by lia.
  assert (0 <= 2 ^ (ez - ez')) by (apply Z.pow_nonneg; lia).
  assert (0 <= Zpos b * 2 ^ (ez - ez')) by lia.
  lia.
Qed.

Lemma Prim2SF_zero : Prim2SF 0 = S754_zero false.
Proof. reflexivity. Qed.

(** Adding a positive double to a positive double does not go below the
    first, and does not reach zero. *)
Lemma add_pos_ge x h :
  lt 0 x = true -> lt 0 h = true ->
  le x (x + h) = true /\ le (x + h) 0 = false.
Proof.
  unfold lt, le.
  rewrite !ltb_spec, !leb_spec, add_spec, Prim2SF_zero.
  pose proof (Prim2SF_valid x) as Hvx.
  destruct (Prim2SF x) as [sx|sx| |sx mx ex]; try discriminate;
    destruct sx; try discriminate;
    destruct (Prim2SF h) as [sh|sh| |sh mh eh]; try discriminate;
    destruct sh; try discriminate; intros _ _.
  - split; reflexivity.
  - split; reflexivity.
  - split; reflexivity.
  - cbn [valid_binary] in Hvx. unfold bounded, canonical_mantissa in Hvx.
    apply andb_prop in Hvx as [Hcan _]. apply Z.eqb_eq in Hcan.
    destruct (SFadd_pos_lower mx ex mh eh Hcan) as [Hr|(m'' & e'' & Hr & Hord)];
      unfold SF64add; rewrite Hr.
    + split; reflexivity.
    + split; [|reflexivity].
      unfold SFleb, SFcompare.
      destruct Hord as [Hlt|[-> Hle]].
      * apply Z.compare_lt_iff in Hlt. rewrite Hlt. reflexivity.
      * rewrite Z.compare_refl.
        change (Pos.compare_cont Eq mx m'') with (mx ?= m'')%positive.
        destruct (mx ?= m'')%positive eqn:E; try reflexivity.
        apply Pos.compare_gt_iff in E. lia.
Qed.

(** Two doubles that compare equal are the same double when one of them is
    positive (the two zeros compare equal and differ). *)
Lemma eqb_pos_eq a b : lt 0 a = true -> (a =? b)%float = true -> a = b.
Proof.
  unfold lt. rewrite ltb_spec, FloatAxioms.eqb_spec, Prim2SF_zero.
  intros Ha Hab. apply Prim2SF_inj.
  destruct (Prim2SF a) as [sa|sa| |sa ma ea]; try discriminate;
    destruct sa; try discriminate;
    destruct (Prim2SF b) as [sb|sb| |sb mb eb]; try discriminate;
    destruct sb; try discriminate; try reflexivity.
  unfold SFeqb, SFcompare in Hab.
  destruct (ea ?= eb) eqn:Ee; try discriminate.
  apply Z.compare_eq in Ee. subst eb.
  change (Pos.compare_cont Eq ma mb) with (ma ?= mb)%positive in Hab.
  destruct (ma ?= mb)%positive eqn:Em; try discriminate.
  apply Pos.compare_eq in Em. subst mb. reflexivity.
Qed.

Local Close Scope Z_scope.

(** A double that compares equal to zero is one of the two zeros. *)
Lemma eqb_zero_cases x : (x =? 0)%float = true -> x = 0%float \/ x = (-0)%float.
Proof.
  rewrite FloatAxioms.eqb_spec, Prim2SF_zero. intros Hx.
  destruct (Prim2SF x) as [s|s| |s m e] eqn:E;
    try (destruct s; cbn in Hx; discriminate); try (cbn in Hx; discriminate).
  destruct s; [right|left]; apply Prim2SF_inj; rewrite E; reflexivity.
Qed.

(** [==] on doubles does not depend on the order of its operands. *)
Lemma eqb_sym a b : (a =? b)%float = (b =? a)%float.
Proof.
  rewrite !FloatAxioms.eqb_spec. unfold SFeqb.
  rewrite (SFcompare_swap (Prim2SF a) (Prim2SF b)).
  destruct (SFcompare (Prim2SF a) (Prim2SF b)) as [[]|]; reflexivity.
Qed.

(** Adding a zero of either sign to a positive double gives it back. *)
Lemma add_signed_zero_pos x z :
  lt 0 x = true -> (z =? 0)%float = true -> (x + z)%float = x.
Proof.
  intros Hx Hz. destruct (eqb_zero_cases z Hz) as [-> | ->].
  - apply add_zero_pos, Hx.
  - unfold lt in Hx. apply Prim2SF_inj. rewrite add_spec.
    rewrite ltb_spec in Hx.
    change (Prim2SF 0) with (S754_zero false) in *.
    change (Prim2SF (-0)) with (S754_zero true).
    destruct (Prim2SF x) as [s|s| |s m e]; try reflexivity; discriminate.
Qed.

End DoubleFacts.

(** ** The loop body is the phased update *)

Section UpdateFacts.

Context {G : Type} `{RandomSource G}.

Lemma update_square_phases (w : World) (sq : Square) (g : G) :
  update_square w sq g = (tt, (update_in_phases w sq g).1, (update_in_phases w sq g).2).
Proof.
  destruct sq as [[sx sy] [px py] [ux uy] c].
  unfold update_in_phases, wall_correction, floor_correction,
    ceiling_correction, classify, integrate, onWall, recolor.
  run_methods.
  change (of_int gScreenWidth) with 640%float.
  change (of_int gScreenHeight) with 480%float.
  change (of_int 0) with 0%float.
  unfold ge, le, gt. split_contacts; reflexivity.
Qed.

End UpdateFacts.

Section FrameFacts.

Context {G : Type} `{RandomSource G}.

Lemma updated_phases w sq g : updated w sq g = (update_in_phases w sq g).1.
Proof. unfold updated. rewrite update_square_phases. reflexivity. Qed.

Lemma generator_after_phases w sq g :
  generator_after w sq g = (update_in_phases w sq g).2.
Proof. unfold generator_after. rewrite update_square_phases. reflexivity. Qed.

(** No correction touches the size. *)
Lemma recolor_size sq g : m_size (recolor sq g).1 = m_size sq.
Proof. unfold recolor. destruct (get_random_color g). reflexivity. Qed.

Lemma wall_correction_size w c sq g : m_size (wall_correction w c sq g).1 = m_size sq.
Proof.
  unfold wall_correction. destruct (onWall c); [|reflexivity].
  rewrite recolor_size. reflexivity.
Qed.

Lemma floor_correction_size w c sq g : m_size (floor_correction w c sq g).1 = m_size sq.
Proof.
  unfold floor_correction. destruct (onFloor c); [|reflexivity].
  destruct (gt _ _); [|reflexivity]. rewrite recolor_size. reflexivity.
Qed.

Lemma ceiling_correction_size w c sq g :
  m_size (ceiling_correction w c sq g).1 = m_size sq.
Proof.
  unfold ceiling_correction. destruct (onCeiling c); [|reflexivity].
  rewrite recolor_size. reflexivity.
Qed.

Lemma update_in_phases_size w sq g : m_size (update_in_phases w sq g).1 = m_size sq.
Proof.
  unfold update_in_phases.
  destruct (wall_correction w _ _ g) as [sq1 g1] eqn:E1.
  destruct (floor_correction w _ sq1 g1) as [sq2 g2] eqn:E2.
  rewrite ceiling_correction_size.
  change sq2 with (sq2, g2).1. rewrite <- E2, floor_correction_size.
  change sq1 with (sq1, g1).1. rewrite <- E1, wall_correction_size.
  reflexivity.
Qed.

Lemma updated_size w sq g : m_size (updated w sq g) = m_size sq.
Proof. rewrite updated_phases. apply update_in_phases_size. Qed.

End FrameFacts.

Section HeapFacts.

Context {G : Type} `{RandomSource G}.

Lemma to_Uint8_byte z : is_byte (to_Uint8 z).
Proof.
  unfold is_byte, to_Uint8.
  pose proof (Z.mod_pos_bound z 256). lia.
Qed.

Lemma get_random_color_opaque (g : G) : opaque_rgba (get_random_color g).1.
Proof.
  unfold get_random_color.
  destruct (get_random_int 0 255 g) as [r g1].
  destruct (get_random_int 0 255 g1) as [gr g2].
  destruct (get_random_int 0 255 g2) as [b g3].
  cbn. repeat split; try apply to_Uint8_byte; unfold is_byte; lia.
Qed.

Lemma of_int_within_20 z :
  (-20 <= z <= 20)%Z -> le (-20) (of_int z) = true /\ le (of_int z) 20 = true.
Proof.
  intros Hz.
  assert (Hk : exists k : nat, k < 41 /\ z = (Z.of_nat k - 20)%Z).
  { exists (Z.to_nat (z + 20)). lia. }
  destruct Hk as (k & Hk & ->).
  do 41 (destruct k as [|k]; [split; reflexivity|]).
  lia.
Qed.

Lemma get_random_velocity_range (g : G) : in_velocity_range (get_random_velocity g).1.
Proof.
  unfold get_random_velocity, get_random_int.
  pose proof (uniform_int_range (-20) 20 g) as Hx.
  destruct (uniform_int (-20) 20 g) as [x g1].
  pose proof (uniform_int_range (-20) 20 g1) as Hy.
  destruct (uniform_int (-20) 20 g1) as [y g2].
  cbn in *.
  destruct (of_int_within_20 x) as [? ?]; [lia|].
  destruct (of_int_within_20 y) as [? ?]; [lia|].
  repeat split; assumption.
Qed.

(** One turn of [init_squares] allocates one fresh, freshly built square and
    appends its pointer. *)
Lemma init_one_square_spec (st : Globals G) :
  exists sq g',
    freshly_built sq
    /\ init_one_square st
       = mkGlobals (gWindow st) (gRenderer st) (gSquares st ++ [next_ptr st])
                   (gWorld st) (gBackgroundColor st)
                   (<[next_ptr st := sq]> (heap st)) (S (next_ptr st)) g'.
Proof.
  unfold init_one_square.
  pose proof (get_random_velocity_range (gen st)) as Hv.
  destruct (get_random_velocity (gen st)) as [v g1].
  pose proof (get_random_color_opaque g1) as Hc.
  destruct (get_random_color g1) as [c g2].
  cbn in *. eexists _, _. split; [|reflexivity].
  repeat split; try apply Hv; try apply Hc.
Qed.

Lemma init_squares_from_spec (n : nat) (st : Globals G) :
  let st' := init_squares_from n st in
  gSquares st' = gSquares st ++ seq (next_ptr st) n
  /\ next_ptr st' = next_ptr st + n
  /\ (forall p, p < next_ptr st -> heap st' !! p = heap st !! p)
  /\ (forall p, next_ptr st <= p < next_ptr st + n ->
        exists sq, heap st' !! p = Some sq /\ freshly_built sq)
  /\ (forall p, next_ptr st + n <= p -> heap st' !! p = heap st !! p).
Proof.
  revert st. induction n as [|n IH]; intros st; cbn.
  - rewrite app_nil_r.
    repeat split; try lia; try reflexivity.
  - destruct (init_one_square_spec st) as (sq & g' & Hsq & Hst).
    specialize (IH (init_one_square st)).
    rewrite Hst in IH |- *. cbn in IH.
    destruct IH as (Hs & Hn & Hlow & Hnew & Hhigh).
    split; [rewrite Hs, <- app_assoc; reflexivity|].
    split; [lia|].
    split; [|split].
    + intros p Hp. rewrite Hlow by lia. apply lookup_insert_ne. lia.
    + intros p Hp. destruct (decide (p = next_ptr st)) as [->|Hne].
      * exists sq. split; [|exact Hsq].
        rewrite Hlow by lia. apply lookup_insert_eq.
      * apply Hnew. lia.
    + intros p Hp. rewrite Hhigh by lia. apply lookup_insert_ne. lia.
Qed.

(** The colour a correction leaves is the one it found or a drawn one. *)
Lemma recolor_opaque sq g : opaque_rgba (m_color (recolor sq g).1).
Proof.
  unfold recolor. pose proof (get_random_color_opaque g) as Hc.
  destruct (get_random_color g). exact Hc.
Qed.

Lemma wall_correction_opaque w c sq g :
  opaque_rgba (m_color sq) -> opaque_rgba (m_color (wall_correction w c sq g).1).
Proof.
  unfold wall_correction. destruct (onWall c); [|tauto].
  intros _. apply recolor_opaque.
Qed.

Lemma floor_correction_opaque w c sq g :
  opaque_rgba (m_color sq) -> opaque_rgba (m_color (floor_correction w c sq g).1).
Proof.
  unfold floor_correction. destruct (onFloor c); [|tauto].
  destruct (gt _ _); [|tauto]. intros _. apply recolor_opaque.
Qed.

Lemma ceiling_correction_opaque w c sq g :
  opaque_rgba (m_color sq) -> opaque_rgba (m_color (ceiling_correction w c sq g).1).
Proof.
  unfold ceiling_correction. destruct (onCeiling c); [|tauto].
  intros _. apply recolor_opaque.
Qed.

Lemma updated_opaque w sq g :
  opaque_rgba (m_color sq) -> opaque_rgba (m_color (updated w sq g)).
Proof.
  intros Hc. rewrite updated_phases. unfold update_in_phases.
  pose proof (wall_correction_opaque w (classify (integrate w sq)) (integrate w sq) g Hc)
    as H1.
  destruct (wall_correction w _ _ g) as [sq1 g1].
  pose proof (floor_correction_opaque w (classify (integrate w sq)) sq1 g1 H1) as H2.
  destruct (floor_correction w _ sq1 g1) as [sq2 g2].
  apply ceiling_correction_opaque. exact H2.
Qed.

Lemma evolves_refl sq : evolves sq sq.
Proof. split; [reflexivity|tauto]. Qed.

Lemma evolves_trans sq1 sq2 sq3 : evolves sq1 sq2 -> evolves sq2 sq3 -> evolves sq1 sq3.
Proof. unfold evolves. intros [-> ?] [-> ?]. split; [reflexivity|tauto]. Qed.

Lemma updated_evolves w sq g : evolves sq (updated w sq g).
Proof. split; [apply updated_size|apply updated_opaque]. Qed.

(** [update_squares] meets no dangling pointer when every pointer is live;
    it keeps the set of live objects and lets each of them evolve. *)
Lemma update_each_spec w (ps : list ptr) (h : gmap ptr Square) (g : G) :
  (forall p, p ∈ ps -> is_Some (h !! p)) ->
  exists h' g',
    update_each w ps h g = Some (h', g')
    /\ (forall q, h !! q = None -> h' !! q = None)
    /\ (forall q sq, h !! q = Some sq ->
          exists sq', h' !! q = Some sq' /\ evolves sq sq').
Proof.
  revert h g. induction ps as [|p ps IH]; intros h g Hlive; cbn.
  - exists h, g. split; [reflexivity|]. split; [tauto|].
    intros q sq Hq. exists sq. split; [exact Hq|apply evolves_refl].
  - destruct (Hlive p) as [sq Hp]; [left|]. rewrite Hp. cbn.
    pose proof (updated_evolves w sq g) as Hev. unfold updated in Hev.
    destruct (update_square w sq g) as [[[] sq'] g1]. cbn in Hev.
    destruct (IH (<[p := sq']> h) g1) as (h' & g' & Hrun & Hnone & Hsome).
    { intros q Hq. destruct (decide (q = p)) as [->|Hne].
      - rewrite lookup_insert_eq. eauto.
      - rewrite lookup_insert_ne by congruence. apply Hlive. right. exact Hq. }
    exists h', g'. split; [exact Hrun|]. split.
    + intros q Hq. apply Hnone. rewrite lookup_insert_ne; [exact Hq|].
      intros ->. congruence.
    + intros q sq0 Hq. destruct (decide (q = p)) as [->|Hne].
      * assert (sq0 = sq) as -> by congruence.
        destruct (Hsome p sq') as (sq'' & Hq' & Hev'); [apply lookup_insert_eq|].
        exists sq''. split; [exact Hq'|]. eapply evolves_trans; eassumption.
      * apply Hsome. rewrite lookup_insert_ne by congruence. exact Hq.
Qed.

(** Releasing distinct live objects succeeds and removes exactly them. *)
Lemma delete_each_spec (ps : list ptr) (h : gmap ptr Square) :
  NoDup ps ->
  (forall p, p ∈ ps -> is_Some (h !! p)) ->
  exists h',
    delete_each ps h = Some h'
    /\ (forall q, q ∈ ps -> h' !! q = None)
    /\ (forall q, q ∉ ps -> h' !! q = h !! q).
Proof.
  revert h. induction ps as [|p ps IH]; intros h Hnd Hlive; cbn.
  - exists h. split; [reflexivity|]. split; [|reflexivity].
    intros q Hq. inversion Hq.
  - apply NoDup_cons in Hnd as [Hp Hnd].
    destruct (Hlive p) as [sq Hsq]; [left|]. rewrite Hsq. cbn.
    destruct (IH (delete p h) Hnd) as (h' & Hrun & Hgone & Hkept).
    { intros q Hq. rewrite lookup_delete_ne; [apply Hlive; right; exact Hq|].
      intros ->. contradiction. }
    exists h'. split; [exact Hrun|]. split.
    + intros q Hq. apply elem_of_cons in Hq as [->|Hq].
      * rewrite Hkept by exact Hp. apply lookup_delete_eq.
      * apply Hgone. exact Hq.
    + intros q Hq. apply not_elem_of_cons in Hq as [Hne Hq].
      rewrite Hkept by exact Hq. apply lookup_delete_ne. congruence.
Qed.

Lemma draw_each_live (ps : list ptr) (h : gmap ptr Square) :
  (forall p, p ∈ ps -> is_Some (h !! p)) -> is_Some (draw_each ps h).
Proof.
  induction ps as [|p ps IH]; intros Hlive; cbn; [eauto|].
  destruct (Hlive p) as [sq Hsq]; [left|]. rewrite Hsq. cbn.
  destruct IH as [calls Hcalls]; [intros q Hq; apply Hlive; right; exact Hq|].
  rewrite Hcalls. cbn. eauto.
Qed.

Lemma heap_step_refl (st : Globals G) : heap_step st st.
Proof.
  split; [lia|]. intros p _. destruct (heap st !! p) as [sq|] eqn:E; [|reflexivity].
  intros sq' [= <-]. apply evolves_refl.
Qed.

Lemma heap_step_trans (st1 st2 st3 : Globals G) :
  heap_step st1 st2 -> heap_step st2 st3 -> heap_step st1 st3.
Proof.
  intros [Hn12 H12] [Hn23 H23]. split; [lia|].
  intros p Hp. specialize (H12 p Hp). specialize (H23 p ltac:(lia)).
  destruct (heap st1 !! p) as [sq1|].
  - intros sq3 Hq3. destruct (heap st2 !! p) as [sq2|].
    + eapply evolves_trans; [apply H12; reflexivity|apply H23; exact Hq3].
    + congruence.
  - rewrite H12 in H23. exact H23.
Qed.

Lemma update_squares_spec (st : Globals G) :
  well_formed st ->
  exists st',
    update_squares st = Some st'
    /\ gSquares st' = gSquares st
    /\ next_ptr st' = next_ptr st
    /\ (forall q, heap st !! q = None -> heap st' !! q = None)
    /\ (forall q sq, heap st !! q = Some sq ->
          exists sq', heap st' !! q = Some sq' /\ evolves sq sq').
Proof.
  intros (_ & Hlive & _). unfold update_squares.
  destruct (update_each_spec (gWorld st) (gSquares st) (heap st) (gen st) Hlive)
    as (h' & g' & Hrun & Hnone & Hsome).
  rewrite Hrun. cbn. eexists. split; [reflexivity|]. cbn. tauto.
Qed.

Lemma reinit_squares_spec (st : Globals G) :
  well_formed st ->
  exists st',
    reinit_squares st = Some st'
    /\ gSquares st' = seq (next_ptr st) gNumSquares
    /\ next_ptr st' = next_ptr st + gNumSquares
    /\ (forall p, p ∈ gSquares st -> heap st' !! p = None)
    /\ (forall p, p ∈ gSquares st' ->
          exists sq, heap st' !! p = Some sq /\ freshly_built sq)
    /\ (forall p, p < next_ptr st -> p ∉ gSquares st -> heap st' !! p = heap st !! p)
    /\ (forall p, next_ptr st + gNumSquares <= p -> heap st' !! p = None).
Proof.
  intros (Hnd & Hlive & Hbound). unfold reinit_squares.
  destruct (delete_each_spec (gSquares st) (heap st) Hnd Hlive)
    as (h & Hrun & Hgone & Hkept).
  rewrite Hrun. cbn [mbind option_bind].
  set (st0 := set_squares st [] h (next_ptr st) (gen st)).
  set (st1 := init_squares st0).
  exists st1. split; [reflexivity|].
  pose proof (init_squares_from_spec gNumSquares st0) as Hspec.
  cbv zeta in Hspec. fold (init_squares st0) in Hspec. fold st1 in Hspec.
  destruct Hspec as (Hs & Hn & Hlow & Hnew & Hhigh).
  cbn [st0 set_squares gSquares next_ptr heap app] in Hs, Hn, Hlow, Hnew, Hhigh.
  split; [exact Hs|]. split; [exact Hn|]. split; [|split; [|split]].
  - intros p Hp. rewrite Hlow; [apply Hgone; exact Hp|].
    apply Hbound, Hlive, Hp.
  - intros p Hp. rewrite Hs in Hp. apply elem_of_seq in Hp. apply Hnew. lia.
  - intros p Hp Hout. rewrite Hlow by exact Hp. apply Hkept. exact Hout.
  - intros p Hp. rewrite Hhigh by exact Hp.
    destruct (decide (p ∈ gSquares st)) as [Hin|Hout].
    + apply Hgone. exact Hin.
    + rewrite Hkept by exact Hout.
      destruct (heap st !! p) as [sq|] eqn:E; [|reflexivity].
      assert (p < next_ptr st) by (apply Hbound; rewrite E; eauto). lia.
Qed.

Lemma init_one_square_draws (st : Globals G) :
  init_one_square st
  = set_squares st (gSquares st ++ [next_ptr st])
      (<[next_ptr st :=
           mkSquare (mkVec2 100 100) (mkVec2 320 240) (get_random_velocity (gen st)).1
                    (get_random_color (get_random_velocity (gen st)).2).1]> (heap st))
      (S (next_ptr st)) (get_random_color (get_random_velocity (gen st)).2).2.
Proof.
  unfold init_one_square.
  destruct (get_random_velocity (gen st)) as [v g1]. cbn [fst snd].
  destruct (get_random_color g1) as [c g2]. reflexivity.
Qed.

Lemma init_squares_from_draws (n : nat) (st : Globals G) :
  gen (init_squares_from n st) = generator_after_squares n (gen st)
  /\ forall i, i < n ->
       exists sq, heap (init_squares_from n st) !! (next_ptr st + i) = Some sq
         /\ m_velocity sq = (get_random_velocity (generator_after_squares i (gen st))).1.
Proof.
  revert st. induction n as [|n IH]; intros st.
  - split; [reflexivity|]. intros i Hi. lia.
  - cbn [init_squares_from generator_after_squares].
    destruct (IH (init_one_square st)) as [Hgen Hnew].
    pose proof (init_squares_from_spec n (init_one_square st)) as (_ & _ & Hlow & _).
    rewrite (init_one_square_draws st) in Hgen, Hnew, Hlow |- *.
    cbn [set_squares gen next_ptr heap] in Hgen, Hnew, Hlow.
    split; [exact Hgen|].
    intros [|i] Hi.
    + rewrite Nat.add_0_r, Hlow by lia. rewrite lookup_insert_eq.
      eexists. split; [reflexivity|]. reflexivity.
    + destruct (Hnew i) as (sq & Hsq & Hv); [lia|].
      exists sq. replace (next_ptr st + S i) with (S (next_ptr st) + i) by lia.
      split; [exact Hsq|exact Hv].
Qed.

Lemma get_random_velocity_draws (g : G) :
  let x := (get_random_int (-20) 20 g).1 in
  let y := (get_random_int (-20) 20 (get_random_int (-20) 20 g).2).1 in
  (get_random_velocity g).1 = mkVec2 (of_int x) (of_int y)
  /\ (-20 <= x <= 20)%Z /\ (-20 <= y <= 20)%Z.
Proof.
  unfold get_random_velocity, get_random_int.
  pose proof (uniform_int_range (-20) 20 g) as Hx.
  destruct (uniform_int (-20) 20 g) as [x g1]. cbn [fst snd] in *.
  pose proof (uniform_int_range (-20) 20 g1) as Hy.
  destruct (uniform_int (-20) 20 g1) as [y g2]. cbn [fst snd] in *.
  split; [reflexivity|]. split; lia.
Qed.

Lemma freshly_built_invariant sq : freshly_built sq -> body_invariant sq.
Proof. intros (Hs & _ & _ & Hc). split; assumption. Qed.

Lemma evolves_invariant sq sq' : evolves sq sq' -> body_invariant sq -> body_invariant sq'.
Proof. intros [Hs Hc] [Hs' Hc']. split; [congruence|tauto]. Qed.

Lemma reinit_squares_invariant (st st' : Globals G) :
  well_formed st -> reinit_squares st = Some st' ->
  collection_invariant st' /\ heap_step st st'.
Proof.
  intros Hwf Hrun.
  destruct (reinit_squares_spec st Hwf)
    as (st0 & Hrun0 & Hs & Hn & Hgone & Hnew & Hkept & Hhigh).
  assert (st0 = st') as -> by congruence.
  destruct Hwf as (Hnd & Hlive & Hbound).
  split; [split; [split; [|split]|]|split].
  - rewrite Hs. apply NoDup_seq.
  - intros p Hp. destruct (Hnew p Hp) as (sq & Hsq & _). eauto.
  - intros p [sq Hsq]. rewrite Hn.
    destruct (decide (p < next_ptr st + gNumSquares)) as [Hlt|Hge]; [exact Hlt|].
    rewrite Hhigh in Hsq by lia. discriminate.
  - intros p Hp. destruct (Hnew p Hp) as (sq & Hsq & Hfresh).
    exists sq. split; [exact Hsq|]. apply freshly_built_invariant, Hfresh.
  - lia.
  - intros p Hp. destruct (decide (p ∈ gSquares st)) as [Hin|Hout].
    + rewrite (Hgone p Hin). destruct (heap st !! p); [discriminate|reflexivity].
    + rewrite (Hkept p Hp Hout). destruct (heap st !! p) as [sq|]; [|reflexivity].
      intros sq' [= <-]. apply evolves_refl.
Qed.

Lemma update_squares_invariant (st st' : Globals G) :
  collection_invariant st -> update_squares st = Some st' ->
  collection_invariant st' /\ heap_step st st'.
Proof.
  intros [Hwf Hbodies] Hrun.
  destruct (update_squares_spec st Hwf) as (st0 & Hrun0 & Hs & Hn & Hnone & Hsome).
  assert (st0 = st') as -> by congruence.
  destruct Hwf as (Hnd & Hlive & Hbound).
  split; [split; [split; [|split]|]|split].
  - rewrite Hs. exact Hnd.
  - intros p Hp. rewrite Hs in Hp. destruct (Hlive p Hp) as [sq Hsq].
    destruct (Hsome p sq Hsq) as (sq' & Hsq' & _). eauto.
  - intros p [sq' Hsq']. rewrite Hn. apply Hbound.
    destruct (heap st !! p) eqn:E; [eauto|]. rewrite (Hnone p E) in Hsq'. discriminate.
  - intros p Hp. rewrite Hs in Hp. destruct (Hbodies p Hp) as (sq & Hsq & Hinv).
    destruct (Hsome p sq Hsq) as (sq' & Hsq' & Hev).
    exists sq'. split; [exact Hsq'|]. eapply evolves_invariant; eassumption.
  - lia.
  - intros p Hp. destruct (heap st !! p) as [sq|] eqn:E.
    + intros sq' Hsq'. destruct (Hsome p sq E) as (sq0 & Hsq0 & Hev). congruence.
    + apply Hnone. exact E.
Qed.

Lemma init_squares_invariant (st : Globals G) :
  collection_invariant st -> collection_invariant (init_squares st) /\ heap_step st (init_squares st).
Proof.
  intros [(Hnd & Hlive & Hbound) Hbodies].
  pose proof (init_squares_from_spec gNumSquares st) as Hspec.
  cbv zeta in Hspec. fold (init_squares st) in Hspec.
  destruct Hspec as (Hs & Hn & Hlow & Hnew & Hhigh).
  assert (Hold : forall p, p ∈ gSquares st -> p < next_ptr st)
    by (intros p Hp; apply Hbound, Hlive, Hp).
  split; [split; [split; [|split]|]|split].
  - rewrite Hs. apply NoDup_app. split; [exact Hnd|]. split; [|apply NoDup_seq].
    intros p Hp Hq. apply elem_of_seq in Hq. apply Hold in Hp. lia.
  - intros p Hp. rewrite Hs in Hp. apply elem_of_app in Hp as [Hp|Hp].
    + rewrite Hlow by (apply Hold, Hp). apply Hlive, Hp.
    + apply elem_of_seq in Hp. destruct (Hnew p) as (sq & Hsq & _); [lia|]. eauto.
  - intros p Hsome. rewrite Hn.
    destruct (decide (p < next_ptr st + gNumSquares)) as [Hlt|Hge]; [exact Hlt|].
    rewrite Hhigh in Hsome by lia. apply Hbound in Hsome. lia.
  - intros p Hp. rewrite Hs in Hp. apply elem_of_app in Hp as [Hp|Hp].
    + rewrite Hlow by (apply Hold, Hp). apply Hbodies, Hp.
    + apply elem_of_seq in Hp. destruct (Hnew p) as (sq & Hsq & Hfresh); [lia|].
      exists sq. split; [exact Hsq|]. apply freshly_built_invariant, Hfresh.
  - lia.
  - intros p Hp. rewrite (Hlow p Hp). destruct (heap st !! p) as [sq|]; [|reflexivity].
    intros sq' [= <-]. apply evolves_refl.
Qed.

(** The event loop of a frame runs to its end and keeps the invariant. *)
Lemma poll_events_invariant (events : list SDL_Event) (quit : bool) (st : Globals G) :
  collection_invariant st ->
  exists quit' st',
    poll_events events quit st = Some (quit', st')
    /\ collection_invariant st' /\ heap_step st st'.
Proof.
  revert quit st. induction events as [|e events IH]; intros quit st Hinv; cbn.
  - exists quit, st. split; [reflexivity|]. split; [exact Hinv|apply heap_step_refl].
  - destruct e as [|[|]|]; try (apply IH; exact Hinv).
    destruct (reinit_squares_spec st (proj1 Hinv)) as (st1 & Hrun & _).
    rewrite Hrun. cbn.
    destruct (reinit_squares_invariant st st1 (proj1 Hinv) Hrun) as [Hinv1 Hstep1].
    destruct (IH quit st1 Hinv1) as (quit' & st' & Hpoll & Hinv' & Hstep').
    exists quit', st'. split; [exact Hpoll|]. split; [exact Hinv'|].
    eapply heap_step_trans; eassumption.
Qed.

Lemma poll_events_quit (events : list SDL_Event) (quit quit' : bool) (st st' : Globals G) :
  poll_events events quit st = Some (quit', st') ->
  quit' = quit || bool_decide (SDL_QUIT ∈ events).
Proof.
  revert quit st. induction events as [|e events IH]; intros quit st; cbn.
  - intros [= <- <-]. rewrite bool_decide_eq_false_2 by apply not_elem_of_nil.
    rewrite orb_false_r. reflexivity.
  - destruct e as [|[|]|]; cbn.
    + intros Hrun. apply IH in Hrun. rewrite Hrun.
      rewrite (bool_decide_eq_true_2 (SDL_QUIT ∈ SDL_QUIT :: events)) by left.
      rewrite orb_true_r. reflexivity.
    + destruct (reinit_squares st) as [st1|]; cbn; [|discriminate].
      intros Hrun. apply IH in Hrun. rewrite Hrun. f_equal.
      apply bool_decide_ext. rewrite elem_of_cons. split; [tauto|].
      intros [?|?]; [discriminate|assumption].
    + intros Hrun. apply IH in Hrun. rewrite Hrun. f_equal.
      apply bool_decide_ext. rewrite elem_of_cons. split; [tauto|].
      intros [?|?]; [discriminate|assumption].
    + intros Hrun. apply IH in Hrun. rewrite Hrun. f_equal.
      apply bool_decide_ext. rewrite elem_of_cons. split; [tauto|].
      intros [?|?]; [discriminate|assumption].
Qed.

(** A whole frame runs without undefined behaviour and keeps the invariant. *)
Lemma frame_invariant (events : list SDL_Event) (st : Globals G) :
  collection_invariant st ->
  exists quit calls st',
    frame events st = Some (quit, calls, st')
    /\ collection_invariant st' /\ heap_step st st'.
Proof.
  intros Hinv. unfold frame.
  destruct (poll_events_invariant events false st Hinv)
    as (quit & st1 & Hpoll & Hinv1 & Hstep1).
  rewrite Hpoll. cbn.
  destruct (draw_each_live (gSquares st1) (heap st1)) as [calls Hcalls];
    [apply Hinv1|].
  unfold draw_squares. rewrite Hcalls. cbn.
  destruct (update_squares_spec st1 (proj1 Hinv1)) as (st2 & Hrun & _).
  rewrite Hrun. cbn.
  destruct (update_squares_invariant st1 st2 Hinv1 Hrun) as [Hinv2 Hstep2].
  eexists _, _, _. split; [reflexivity|]. split; [exact Hinv2|].
  eapply heap_step_trans; eassumption.
Qed.

Lemma frame_quit (events : list SDL_Event) (st st' : Globals G) quit calls :
  frame events st = Some (quit, calls, st') ->
  quit = bool_decide (SDL_QUIT ∈ events).
Proof.
  unfold frame.
  destruct (poll_events events false st) as [[q st1]|] eqn:E;
    cbn [mbind option_bind]; [|discriminate].
  destruct (draw_squares st1); cbn [mbind option_bind]; [|discriminate].
  destruct (update_squares st1); cbn [mbind option_bind]; [|discriminate].
  intros [= <- <- <-]. apply poll_events_quit in E. exact E.
Qed.

Lemma globals_at_start_invariant (seed : G) : collection_invariant (globals_at_start seed).
Proof.
  split; [split; [apply NoDup_nil_2|split]|]; cbn.
  - intros p Hp. inversion Hp.
  - intros p [sq Hsq]. rewrite lookup_empty in Hsq. discriminate.
  - intros p Hp. inversion Hp.
Qed.

Lemma init_invariant (sdl : SDL) (st st' : Globals G) (ok : Z) :
  collection_invariant st -> init sdl st = (ok, st') -> collection_invariant st'.
Proof.
  unfold init. intros Hinv.
  destruct (negb _); intros [= <- <-]; exact Hinv.
Qed.

Lemma reachable_invariant (st : Globals G) : reachable st -> collection_invariant st.
Proof.
  induction 1 as [sdl seed st Hinit|st events quit calls st' _ IH Hframe].
  - apply init_squares_invariant.
    eapply init_invariant; [apply globals_at_start_invariant|exact Hinit].
  - destruct (frame_invariant events st IH) as (q & c & st0 & Hrun & Hinv & _).
    congruence.
Qed.

(** The loop of [main] ends with code 0 or not at all. *)
Lemma main_loop_code (frames : list (list SDL_Event)) (n k : nat) (st : Globals G) (code : Z) :
  main_loop frames n st = Returned code k -> code = 0%Z /\ 0 < k.
Proof.
  revert n st. induction frames as [|events later IH]; intros n st; cbn.
  - discriminate.
  - destruct (frame events st) as [[[quit calls] st']|]; [|discriminate].
    destruct quit.
    + intros [= <- <-]. split; [reflexivity|lia].
    + apply IH.
Qed.

Lemma wall_correction_color w c sq g :
  m_color (wall_correction w c sq g).1 = m_color sq
  \/ opaque_rgba (m_color (wall_correction w c sq g).1).
Proof.
  unfold wall_correction. destruct (onWall c); [right; apply recolor_opaque|left; reflexivity].
Qed.

Lemma floor_correction_color w c sq g :
  m_color (floor_correction w c sq g).1 = m_color sq
  \/ opaque_rgba (m_color (floor_correction w c sq g).1).
Proof.
  unfold floor_correction. destruct (onFloor c); [|left; reflexivity].
  destruct (gt _ _); [right; apply recolor_opaque|left; reflexivity].
Qed.

Lemma ceiling_correction_color w c sq g :
  m_color (ceiling_correction w c sq g).1 = m_color sq
  \/ opaque_rgba (m_color (ceiling_correction w c sq g).1).
Proof.
  unfold ceiling_correction.
  destruct (onCeiling c); [right; apply recolor_opaque|left; reflexivity].
Qed.

Lemma updated_color w sq g :
  m_color (updated w sq g) = m_color sq \/ opaque_rgba (m_color (updated w sq g)).
Proof.
  rewrite updated_phases. unfold update_in_phases.
  set (c := classify (integrate w sq)).
  pose proof (wall_correction_color w c (integrate w sq) g) as H1.
  destruct (wall_correction w c (integrate w sq) g) as [sq1 g1]. cbn [fst] in H1.
  pose proof (floor_correction_color w c sq1 g1) as H2.
  pose proof (floor_correction_opaque w c sq1 g1) as H2'.
  destruct (floor_correction w c sq1 g1) as [sq2 g2]. cbn [fst] in H2, H2'.
  pose proof (ceiling_correction_color w c sq2 g2) as H3.
  pose proof (ceiling_correction_opaque w c sq2 g2) as H3'.
  destruct (ceiling_correction w c sq2 g2) as [sq3 g3]. cbn [fst] in H3, H3' |- *.
  change (m_color (integrate w sq)) with (m_color sq) in H1.
  destruct H3 as [H3|H3]; [|right; exact H3].
  destruct H2 as [H2|H2]; [|right; apply H3'; exact H2].
  destruct H1 as [H1|H1]; [left; congruence|right; apply H3', H2'; exact H1].
Qed.

(** From a state that satisfies the invariant the loop of [main] meets no
    undefined behaviour, whatever the events. *)
Lemma main_loop_defined (frames : list (list SDL_Event)) (n : nat) (st : Globals G) :
  collection_invariant st ->
  (exists k, main_loop frames n st = Returned 0 k)
  \/ (exists k st', main_loop frames n st = Running k st').
Proof.
  revert n st. induction frames as [|events later IH]; intros n st Hinv; cbn.
  - right. eauto.
  - destruct (frame_invariant events st Hinv) as (quit & calls & st' & Hrun & Hinv' & _).
    rewrite Hrun. destruct quit; [left; eauto|]. apply IH. exact Hinv'.
Qed.

End HeapFacts.

(** ** Numbers, order and sums of doubles *)

Module NumberFacts.

Local Open Scope Z_scope.

Lemma round_nearest_even_nonneg m l : 0 <= m -> 0 <= round_nearest_even m l.
Proof.
  intros Hm. destruct (DoubleFacts.round_nearest_even_cases m l) as [-> | ->]; lia.
Qed.

Lemma Zdigits2_nonneg m : 0 <= Zdigits2 m.
Proof. destruct m; cbn; lia. Qed.

Lemma binary_round_aux_num s (M : positive) e :
  SFnum (binary_round_aux prec emax s (Zpos M) e loc_Exact) = true.
Proof.
  unfold binary_round_aux, shr_fexp. cbn [shr_record_of_loc].
  set (n := fexp prec emax (Zdigits2 (Zpos M) + e) - e).
  pose proof (DoubleFacts.shr_m_e (Zpos M) e n ltac:(lia)) as [Hm' _].
  destruct (shr {| shr_m := Zpos M; shr_r := false; shr_s := false |} e n) as [mrs' e'].
  cbn [fst] in Hm'.
  assert (H0 : 0 <= shr_m mrs').
  { rewrite Hm'. apply Z.div_pos; [lia|]. apply Z.pow_pos_nonneg; lia. }
  pose proof (round_nearest_even_nonneg (shr_m mrs') (loc_of_shr_record mrs') H0) as Hr.
  set (mr := round_nearest_even (shr_m mrs') (loc_of_shr_record mrs')) in *.
  set (n2 := fexp prec emax (Zdigits2 mr + e') - e').
  pose proof (DoubleFacts.shr_m_e mr e' n2 Hr) as [Hm'' _].
  destruct (shr {| shr_m := mr; shr_r := false; shr_s := false |} e' n2) as [mrs'' e''].
  cbn [fst] in Hm''.
  assert (H1 : 0 <= shr_m mrs'').
  { rewrite Hm''. apply Z.div_pos; [lia|]. apply Z.pow_pos_nonneg; lia. }
  destruct (shr_m mrs'') as [|p|p]; [reflexivity| |lia].
  destruct (e'' <=? emax - prec); reflexivity.
Qed.

Lemma binary_normalize_num m e sz :
  SFnum (binary_normalize prec emax m e sz) = true.
Proof.
  unfold binary_normalize, binary_round.
  destruct m as [|p|p]; [reflexivity| |].
  all: destruct (shl_align p e _) as [mz ez]; apply binary_round_aux_num.
Qed.

Lemma SFadd_num x y :
  SFnum x = true -> SFfin y = true -> SFnum (SFadd prec emax x y) = true.
Proof.
  destruct x as [sx|sx| |sx mx ex], y as [sy|sy| |sy my ey]; try discriminate;
    intros _ _; cbn [SFadd]; try reflexivity.
  - destruct sx, sy; reflexivity.
  - apply binary_normalize_num.
Qed.

Lemma SFadd_num_l x y :
  SFfin x = true -> SFnum y = true -> SFnum (SFadd prec emax x y) = true.
Proof.
  destruct x as [sx|sx| |sx mx ex], y as [sy|sy| |sy my ey]; try discriminate;
    intros _ _; cbn [SFadd]; try reflexivity.
  - destruct sx, sy; reflexivity.
  - apply binary_normalize_num.
Qed.

Lemma SFmul_num x s m e :
  SFnum x = true -> SFnum (SFmul prec emax x (S754_finite s m e)) = true.
Proof.
  destruct x as [sx|sx| |sx mx ex]; try discriminate; intros _; cbn [SFmul];
    try reflexivity.
  apply binary_round_aux_num.
Qed.

Local Close Scope Z_scope.

(** [is_nan] on the specification side. *)
Lemma SFcompare_refl_num x : SFnum x = true -> SFcompare x x = Some Eq.
Proof.
  destruct x as [s|s| |s m e]; try discriminate; intros _; cbn.
  - reflexivity.
  - destruct s; reflexivity.
  - rewrite Z.compare_refl.
    change (Pos.compare_cont Eq m m) with (m ?= m)%positive.
    rewrite Pos.compare_refl. destruct s; reflexivity.
Qed.

Lemma is_nan_SFnum x : is_nan x = negb (SFnum (Prim2SF x)).
Proof.
  unfold is_nan. rewrite FloatAxioms.eqb_spec. unfold SFeqb.
  destruct (Prim2SF x) as [s|s| |s m e] eqn:E; cbn [SFnum negb].
  - reflexivity.
  - destruct s; reflexivity.
  - reflexivity.
  - rewrite (SFcompare_refl_num (S754_finite s m e) eq_refl). reflexivity.
Qed.

Lemma is_number_SFnum d : is_number d = SFnum (Prim2SF d).
Proof.
  pose proof (is_nan_SFnum d) as Hn. unfold is_nan in Hn. unfold is_number.
  destruct (d =? d)%float, (SFnum (Prim2SF d)); cbn in Hn; congruence.
Qed.

Lemma SFcompare_num x y :
  SFnum x = true -> SFnum y = true -> exists c, SFcompare x y = Some c.
Proof.
  destruct x as [sx|sx| |sx mx ex], y as [sy|sy| |sy my ey]; try discriminate;
    intros _ _; cbn; eauto.
Qed.

Lemma SFcompare_some_num x y c : SFcompare x y = Some c -> SFnum x = true /\ SFnum y = true.
Proof.
  destruct x as [sx|sx| |sx mx ex], y as [sy|sy| |sy my ey]; cbn; try discriminate;
    intros _; split; reflexivity.
Qed.

(** A comparison that holds compares two numbers. *)
Lemma le_numbers a b : le a b = true -> is_number a = true /\ is_number b = true.
Proof.
  unfold le. rewrite leb_spec, !is_number_SFnum. unfold SFleb.
  destruct (SFcompare (Prim2SF a) (Prim2SF b)) as [c|] eqn:E; [|discriminate].
  intros _. eapply SFcompare_some_num. exact E.
Qed.

(** Two numbers are ordered one way or the other. *)
Lemma not_le_lt a b :
  is_number a = true -> is_number b = true -> le a b = false -> lt b a = true.
Proof.
  unfold le, lt. rewrite leb_spec, ltb_spec, !is_number_SFnum. unfold SFleb, SFltb.
  intros Ha Hb. rewrite (DoubleFacts.SFcompare_swap (Prim2SF a) (Prim2SF b)).
  destruct (SFcompare_num _ _ Ha Hb) as [c ->]. destruct c; cbn; congruence.
Qed.

Lemma lt_le a b : lt a b = true -> le a b = true.
Proof.
  unfold le, lt. rewrite leb_spec, ltb_spec. unfold SFleb, SFltb.
  destruct (SFcompare (Prim2SF a) (Prim2SF b)) as [[]|]; congruence.
Qed.

(** A double between two finite doubles is finite. *)
Lemma between_finite a x b :
  SFfin (Prim2SF a) = true -> SFfin (Prim2SF b) = true ->
  le a x = true -> le x b = true -> SFfin (Prim2SF x) = true.
Proof.
  unfold le. rewrite !leb_spec. unfold SFleb.
  destruct (Prim2SF a) as [sa|sa| |sa ma ea]; try discriminate;
    destruct (Prim2SF b) as [sb|sb| |sb mb eb]; try discriminate;
    destruct (Prim2SF x) as [sx|sx| |sx mx ex]; try reflexivity; cbn;
    try (destruct sx); cbn; congruence.
Qed.

Lemma add_number_l x y :
  SFfin (Prim2SF x) = true -> is_number y = true -> is_number (x + y) = true.
Proof.
  rewrite !is_number_SFnum, add_spec. apply SFadd_num_l.
Qed.

Lemma add_number_r x y :
  is_number x = true -> SFfin (Prim2SF y) = true -> is_number (x + y) = true.
Proof.
  rewrite !is_number_SFnum, add_spec. apply SFadd_num.
Qed.

Lemma mul_number x c :
  is_number x = true -> SFnz (Prim2SF c) = true -> is_number (x * c) = true.
Proof.
  rewrite !is_number_SFnum, mul_spec.
  destruct (Prim2SF c) as [s|s| |s m e]; try discriminate.
  intros Hx _. apply SFmul_num. exact Hx.
Qed.

Lemma SFadd_comm p e x y : SFadd p e x y = SFadd p e y x.
Proof.
  destruct x as [sx|sx| |sx mx ex], y as [sy|sy| |sy my ey]; cbn [SFadd];
    try reflexivity; try (destruct sx, sy; reflexivity).
  rewrite (Z.min_comm ex ey), Z.add_comm. reflexivity.
Qed.

Lemma add_comm a b : (a + b = b + a)%float.
Proof. apply Prim2SF_inj. rewrite !add_spec. apply SFadd_comm. Qed.

(** A double that compares equal to the floor line and whose sum with a
    half is above zero: the sum is on the floor line or beyond. *)
Lemma add_half_ge y f :
  (y =? f)%float = true -> le (y + 0.5) 0 = false -> le f (y + 0.5) = true.
Proof.
  intros Hyf Hpos.
  destruct (ltb 0 y) eqn:Hy.
  - pose proof (DoubleFacts.eqb_pos_eq y f Hy Hyf) as <-.
    apply (DoubleFacts.add_pos_ge y 0.5 Hy eq_refl).
  - revert Hyf Hpos Hy. unfold le.
    rewrite FloatAxioms.eqb_spec, !leb_spec, ltb_spec, add_spec, DoubleFacts.Prim2SF_zero.
    pose proof (SFadd_num (Prim2SF y) (Prim2SF 0.5)) as Hnum.
    change (Prim2SF 0.5) with (S754_finite false 4503599627370496 (-53)) in *.
    unfold SF64add.
    intros Hyf Hpos Hy.
    destruct (Prim2SF y) as [sy|sy| |sy my ey]; [| | |].
    + destruct (Prim2SF f) as [sf|sf| |sf mf ef];
        try (destruct sy; cbn in Hyf; discriminate);
        try (destruct sy, sf; cbn in Hyf; discriminate).
      destruct sy; reflexivity.
    + destruct sy; [vm_compute in Hpos|vm_compute in Hy]; discriminate.
    + cbn in Hyf. discriminate.
    + destruct sy; [|cbn in Hy; discriminate].
      specialize (Hnum eq_refl eq_refl).
      destruct (Prim2SF f) as [sf|sf| |sf mf ef];
        try (cbn in Hyf; discriminate); try (destruct sf; cbn in Hyf; discriminate).
      destruct sf; [|cbn in Hyf; discriminate].
      destruct (SFadd prec emax (S754_finite true my ey) _) as [sz|sz| |sz mz ez];
        try (cbn in Hnum; discriminate);
        destruct sz; try (cbn in Hpos; discriminate); reflexivity.
Qed.

(** A double at the floor line whose sum with a half is not above zero is
    below zero. *)
Lemma add_half_le y f :
  (y =? f)%float = true -> le (y + 0.5) 0 = true -> (0 =? y)%float = false.
Proof.
  intros Hyf Hneg.
  destruct (ltb 0 y) eqn:Hy.
  - destruct (DoubleFacts.add_pos_ge y 0.5 Hy eq_refl) as [_ Hoff]. congruence.
  - revert Hyf Hneg Hy. unfold le.
    rewrite !FloatAxioms.eqb_spec, !leb_spec, ltb_spec, add_spec, DoubleFacts.Prim2SF_zero.
    unfold SF64add.
    change (Prim2SF 0.5) with (S754_finite false 4503599627370496 (-53)) in *.
    intros Hyf Hneg Hy.
    destruct (Prim2SF y) as [sy|sy| |sy my ey]; [| | |].
    + destruct sy; vm_compute in Hneg; discriminate.
    + destruct sy; reflexivity.
    + cbn in Hyf. discriminate.
    + destruct sy; [reflexivity|cbn in Hy; discriminate].
Qed.

End NumberFacts.

Import NumberFacts.

(** ** The screen invariant *)

Section OnScreen.

Context {G : Type} `{RandomSource G}.

Lemma strictly_inside a x b :
  is_number x = true -> is_number a = true -> is_number b = true ->
  le x a = false -> ge x b = false -> le a x = true /\ le x b = true.
Proof.
  intros Hx Ha Hb Hlow Hhigh. split.
  - apply lt_le. apply (not_le_lt x a Hx Ha Hlow).
  - apply lt_le. apply (not_le_lt b x Hb Hx Hhigh).
Qed.

Lemma updated_on_screen (sq : Square) (g : G) :
  on_screen sq -> on_screen (updated World_default sq g).
Proof.
  destruct sq as [[sx sy] [px py] [ux uy] c]. unfold on_screen.
  cbn [m_size m_position m_velocity vx vy].
  intros ([= -> ->] & Hx0 & Hx1 & Hy0 & Hy1 & Hux & Huy).
  change (of_int gScreenWidth - 100)%float with 540%float in *.
  change (of_int gScreenHeight - 100)%float with 380%float in *.
  assert (Hpx : SFfin (Prim2SF px) = true)
    by (apply (between_finite 0 px 540); first [reflexivity | assumption]).
  assert (Hpy : SFfin (Prim2SF py) = true)
    by (apply (between_finite 0 py 380); first [reflexivity | assumption]).
  assert (Hux1 : is_number (ux * 0.995) = true) by (apply mul_number; [assumption|reflexivity]).
  assert (Huy1 : is_number (uy + 0.5) = true) by (apply add_number_r; [assumption|reflexivity]).
  assert (Hx : is_number (px + ux * 0.995) = true) by (apply add_number_l; assumption).
  assert (Hy : is_number (py + (uy + 0.5)) = true) by (apply add_number_l; assumption).
  rewrite updated_phases.
  unfold update_in_phases, wall_correction, floor_correction, ceiling_correction,
    recolor, onWall, classify, integrate.
  cbn [m_size m_position m_velocity m_color vx vy gravity damping air_resistance
       World_default onLeftWall onRightWall onFloor onCeiling].
  change (640 - 100)%float with 540%float.
  change (480 - 100)%float with 380%float.
  destruct (ge (px + ux * 0.995) 540) eqn:Er, (le (px + ux * 0.995) 0) eqn:El;
    cbn [orb]; draw_colors.
  all: destruct (ge (py + (uy + 0.5)) 380) eqn:Ef;
    [destruct (gt (uy + 0.5) 0.5) eqn:Eb|]; draw_colors.
  all: destruct (le (py + (uy + 0.5)) 0) eqn:Ec; draw_colors.
  all: change (of_int gScreenWidth - 100)%float with 540%float.
  all: change (of_int gScreenHeight - 100)%float with 380%float.
  all: try (destruct (strictly_inside 0 (px + ux * 0.995) 540 Hx eq_refl eq_refl El Er)
              as [Hxa Hxb]).
  all: try (destruct (strictly_inside 0 (py + (uy + 0.5)) 380 Hy eq_refl eq_refl Ec Ef)
              as [Hya Hyb]).
  all: repeat split;
    first [ reflexivity | assumption
          | repeat (apply mul_number; [|reflexivity]); assumption ].
Qed.

End OnScreen.

Section Collection.

Context {G : Type} `{RandomSource G}.

Lemma freshly_built_on_screen sq : freshly_built sq -> on_screen sq.
Proof.
  intros (Hs & Hp & (Hx0 & Hx1 & Hy0 & Hy1) & _).
  unfold on_screen. rewrite Hs, Hp. cbn [vx vy].
  repeat split; try reflexivity.
  - apply (le_numbers _ _ Hx1).
  - apply (le_numbers _ _ Hy1).
Qed.

Lemma update_each_forall (P : Square -> Prop) w ps (h h' : gmap nat Square) (g g' : G) :
  (forall sq g0, P sq -> P (updated w sq g0)) ->
  map_Forall (fun _ sq => P sq) h ->
  update_each w ps h g = Some (h', g') ->
  map_Forall (fun _ sq => P sq) h'.
Proof.
  intros Hstep. revert h g. induction ps as [|p ps IH]; intros h g Hall; cbn.
  - intros [= <- <-]. exact Hall.
  - destruct (h !! p) as [sq|] eqn:Hp; cbn; [|discriminate].
    pose proof (Hstep sq g (Hall p sq Hp)) as Hsq. unfold updated in Hsq.
    destruct (update_square w sq g) as [[[] sq'] g1]. cbn in Hsq.
    apply IH. apply map_Forall_insert_2; assumption.
Qed.

Lemma delete_each_forall (P : Square -> Prop) ps (h h' : gmap nat Square) :
  map_Forall (fun _ sq => P sq) h ->
  delete_each ps h = Some h' ->
  map_Forall (fun _ sq => P sq) h'.
Proof.
  revert h. induction ps as [|p ps IH]; intros h Hall; cbn.
  - intros [= <-]. exact Hall.
  - destruct (h !! p) as [sq|]; cbn; [|discriminate].
    apply IH. apply map_Forall_delete. exact Hall.
Qed.

Lemma init_squares_from_forall (P : Square -> Prop) n (st : Globals G) :
  (forall sq, freshly_built sq -> P sq) ->
  map_Forall (fun _ sq => P sq) (heap st) ->
  map_Forall (fun _ sq => P sq) (heap (init_squares_from n st)).
Proof.
  intros Hfresh. revert st. induction n as [|n IH]; intros st Hall; cbn; [exact Hall|].
  apply IH. destruct (init_one_square_spec st) as (sq & g' & Hsq & ->). cbn.
  apply map_Forall_insert_2; [apply Hfresh, Hsq|exact Hall].
Qed.

Lemma init_squares_from_world n (st : Globals G) :
  gWorld (init_squares_from n st) = gWorld st.
Proof.
  revert st. induction n as [|n IH]; intros st; cbn; [reflexivity|].
  rewrite IH. destruct (init_one_square_spec st) as (sq & g' & _ & ->). reflexivity.
Qed.

Lemma init_squares_full (st : Globals G) :
  collection_invariant st -> gSquares st = [] -> heap st = ∅ ->
  gWorld st = World_default ->
  full_invariant (init_squares st).
Proof.
  intros Hinv Hs Hh Hw.
  split; [apply init_squares_invariant, Hinv|]. split.
  - pose proof (init_squares_from_spec gNumSquares st) as Hspec.
    cbv zeta in Hspec. fold (init_squares st) in Hspec.
    destruct Hspec as (Hs' & Hn & Hlow & Hnew & Hhigh).
    rewrite Hs in Hs'. cbn [app] in Hs'.
    split; [rewrite Hs'; apply length_seq|].
    intros p. rewrite Hs', elem_of_seq. split.
    + intros Hp.
      destruct (decide (p < next_ptr st)) as [Hlt|Hge].
      { rewrite Hlow, Hh, lookup_empty in Hp by exact Hlt. destruct Hp; discriminate. }
      destruct (decide (p < next_ptr st + gNumSquares)) as [Hlt|Hge']; [lia|].
      rewrite Hhigh, Hh, lookup_empty in Hp by lia. destruct Hp; discriminate.
    + intros Hp. destruct (Hnew p Hp) as (sq & Hsq & _). eauto.
  - split.
    + unfold init_squares. rewrite init_squares_from_world. exact Hw.
    + apply init_squares_from_forall; [apply freshly_built_on_screen|].
      rewrite Hh. apply map_Forall_empty.
Qed.

Lemma reinit_squares_full (st st' : Globals G) :
  full_invariant st -> reinit_squares st = Some st' -> full_invariant st'.
Proof.
  intros (Hinv & [Hlen Hdom] & [Hw Hall]) Hrun.
  destruct (reinit_squares_invariant st st' (proj1 Hinv) Hrun) as [Hinv' _].
  split; [exact Hinv'|].
  destruct (reinit_squares_spec st (proj1 Hinv))
    as (st0 & Hrun0 & Hs & Hn & Hgone & Hnew & Hkept & Hhigh).
  assert (st0 = st') as -> by congruence.
  split; [split|split].
  - rewrite Hs. apply length_seq.
  - intros p. split.
    + intros Hp. rewrite Hs. apply elem_of_seq.
      destruct (decide (p < next_ptr st)) as [Hlt|Hge].
      { destruct (decide (p ∈ gSquares st)) as [Hin|Hout].
        - rewrite (Hgone p Hin) in Hp. destruct Hp; discriminate.
        - rewrite (Hkept p Hlt Hout) in Hp. apply Hdom in Hp. contradiction. }
      destruct (decide (p < next_ptr st + gNumSquares)) as [Hlt|Hge']; [lia|].
      rewrite Hhigh in Hp by lia. destruct Hp; discriminate.
    + intros Hp. destruct (Hnew p Hp) as (sq & Hsq & _). eauto.
  - unfold reinit_squares in Hrun.
    destruct (delete_each (gSquares st) (heap st)) as [h|];
      cbn [mbind option_bind] in Hrun; [|discriminate].
    injection Hrun as <-. unfold init_squares. rewrite init_squares_from_world. exact Hw.
  - unfold reinit_squares in Hrun.
    destruct (delete_each (gSquares st) (heap st)) as [h|] eqn:Hdel;
      cbn [mbind option_bind] in Hrun; [|discriminate].
    injection Hrun as <-. unfold init_squares.
    apply init_squares_from_forall; [apply freshly_built_on_screen|].
    cbn. eapply delete_each_forall; eassumption.
Qed.

Lemma update_squares_full (st st' : Globals G) :
  full_invariant st -> update_squares st = Some st' -> full_invariant st'.
Proof.
  intros (Hinv & [Hlen Hdom] & [Hw Hall]) Hrun.
  destruct (update_squares_invariant st st' Hinv Hrun) as [Hinv' _].
  split; [exact Hinv'|].
  destruct (update_squares_spec st (proj1 Hinv)) as (st0 & Hrun0 & Hs & Hn & Hnone & Hsome).
  assert (st0 = st') as -> by congruence.
  split; [split|split].
  - rewrite Hs. exact Hlen.
  - intros p. rewrite Hs, <- Hdom. split.
    + intros [sq' Hp]. destruct (heap st !! p) as [sq|] eqn:E; [eauto|].
      rewrite (Hnone p E) in Hp. discriminate.
    + intros [sq Hp]. destruct (Hsome p sq Hp) as (sq' & Hp' & _). eauto.
  - unfold update_squares in Hrun.
    destruct (update_each _ _ _ _) as [[h g]|]; cbn in Hrun; [|discriminate].
    injection Hrun as <-. exact Hw.
  - unfold update_squares in Hrun. rewrite Hw in Hrun.
    destruct (update_each _ _ _ _) as [[h g]|] eqn:Hup; cbn in Hrun; [|discriminate].
    injection Hrun as <-. cbn.
    eapply (update_each_forall on_screen); [|exact Hall|exact Hup].
    intros sq g0. apply updated_on_screen.
Qed.

Lemma poll_events_full events quit (st st' : Globals G) quit' :
  full_invariant st -> poll_events events quit st = Some (quit', st') ->
  full_invariant st'.
Proof.
  revert quit st. induction events as [|e events IH]; intros quit st Hinv; cbn.
  - intros [= <- <-]. exact Hinv.
  - destruct e as [|[|]|]; try (apply IH; exact Hinv).
    destruct (reinit_squares st) as [st1|] eqn:Hre; cbn; [|discriminate].
    apply IH. eapply reinit_squares_full; eassumption.
Qed.

Lemma frame_full events (st st' : Globals G) quit calls :
  full_invariant st -> frame events st = Some (quit, calls, st') -> full_invariant st'.
Proof.
  intros Hinv. unfold frame.
  destruct (poll_events events false st) as [[q st1]|] eqn:Hpoll; cbn; [|discriminate].
  destruct (draw_squares st1) as [cs|]; cbn; [|discriminate].
  destruct (update_squares st1) as [st2|] eqn:Hup; cbn; [|discriminate].
  intros [= <- <- <-].
  eapply update_squares_full; [|exact Hup].
  eapply poll_events_full; eassumption.
Qed.

Lemma reachable_full (st : Globals G) : reachable st -> full_invariant st.
Proof.
  induction 1 as [sdl seed st Hinit|st events quit calls st' _ IH Hframe].
  - unfold init in Hinit. destruct (negb _); [discriminate|].
    injection Hinit as <-.
    apply init_squares_full; try reflexivity.
    split; [split; [apply NoDup_nil_2|split]|]; cbn.
    + intros p Hp. inversion Hp.
    + intros p [sq Hsq]. rewrite lookup_empty in Hsq. discriminate.
    + intros p Hp. inversion Hp.
  - eapply frame_full; eassumption.
Qed.

End Collection.

(** ** Conversions to [int] of on-screen coordinates *)

Section Rendering.

Context {G : Type} `{RandomSource G}.

Local Open Scope Z_scope.




Local Close Scope Z_scope.


End Rendering.

Section Running.

Context {G : Type} `{RandomSource G}.

Lemma poll_events_resets (events : list SDL_Event) (quit : bool) (st : Globals G) :
  collection_invariant st ->
  exists st',
    poll_events events quit st = Some (quit || bool_decide (SDL_QUIT ∈ events), st')
    /\ next_ptr st' = next_ptr st + gNumSquares * resets events
    /\ (resets events = 0 -> st' = st)
    /\ (0 < resets events ->
        gSquares st' = seq (next_ptr st + gNumSquares * (resets events - 1)) gNumSquares).
Proof.
  intros Hinv.
  destruct (poll_events_invariant events quit st Hinv) as (q & st' & Hrun & _).
  rewrite (poll_events_quit _ _ _ _ _ Hrun) in Hrun.
  exists st'. split; [exact Hrun|]. clear q.
  revert quit st Hinv Hrun. unfold resets.
  induction events as [|e events IH]; intros quit st Hinv; cbn [poll_events].
  - intros [= _ <-]. cbn. repeat split; try lia.
  - destruct e as [|[|]|].
    + rewrite filter_cons_False by discriminate. intros Hrun.
      destruct (poll_events_invariant events true st Hinv) as (q & st0 & Hrun0 & _).
      rewrite Hrun0 in Hrun. injection Hrun as _ <-. apply (IH true st Hinv).
      rewrite Hrun0. f_equal. f_equal. apply (poll_events_quit _ _ _ _ _ Hrun0).
    + rewrite filter_cons_True by reflexivity. cbn [length].
      destruct (reinit_squares_spec st (proj1 Hinv)) as (st1 & Hre & Hs1 & Hn1 & _).
      rewrite Hre. cbn [mbind option_bind].
      destruct (reinit_squares_invariant st st1 (proj1 Hinv) Hre) as [Hinv1 _].
      intros Hrun.
      destruct (poll_events_invariant events quit st1 Hinv1) as (q & st0 & Hrun0 & _).
      rewrite Hrun0 in Hrun. injection Hrun as _ <-.
      destruct (IH quit st1 Hinv1) as (Hn & Hsame & Hlast).
      { rewrite Hrun0. f_equal. f_equal. apply (poll_events_quit _ _ _ _ _ Hrun0). }
      split; [rewrite Hn, Hn1; lia|]. split; [lia|]. intros _.
      destruct (length (filter (fun e => e = SDL_KEYDOWN SDLK_SPACE) events)) as [|k] eqn:Ek.
      * rewrite (Hsame eq_refl), Hs1. f_equal. lia.
      * rewrite Hlast by lia. rewrite Hn1. f_equal. lia.
    + rewrite filter_cons_False by discriminate. intros Hrun.
      destruct (poll_events_invariant events quit st Hinv) as (q & st0 & Hrun0 & _).
      rewrite Hrun0 in Hrun. injection Hrun as _ <-. apply (IH quit st Hinv).
      rewrite Hrun0. f_equal. f_equal. apply (poll_events_quit _ _ _ _ _ Hrun0).
    + rewrite filter_cons_False by discriminate. intros Hrun.
      destruct (poll_events_invariant events quit st Hinv) as (q & st0 & Hrun0 & _).
      rewrite Hrun0 in Hrun. injection Hrun as _ <-. apply (IH quit st Hinv).
      rewrite Hrun0. f_equal. f_equal. apply (poll_events_quit _ _ _ _ _ Hrun0).
Qed.

Lemma main_loop_runs_on (frames : list (list SDL_Event)) (n : nat) (st : Globals G) :
  collection_invariant st ->
  Forall (fun events => SDL_QUIT ∉ events) frames ->
  exists st', main_loop frames n st = Running (n + length frames) st'.
Proof.
  revert n st. induction frames as [|events later IH]; intros n st Hinv Hno; cbn.
  - exists st. f_equal. lia.
  - apply Forall_cons in Hno as [Hno Hlater].
    destruct (frame_invariant events st Hinv) as (quit & calls & st' & Hrun & Hinv' & _).
    rewrite Hrun. rewrite (frame_quit _ _ _ _ _ Hrun).
    rewrite bool_decide_eq_false_2 by exact Hno.
    destruct (IH (S n) st' Hinv' Hlater) as (st'' & ->).
    exists st''. f_equal. lia.
Qed.


Lemma recolor_motion sq sq' (g g' : G) :
  same_motion sq sq' -> same_motion (recolor sq g).1 (recolor sq' g').1.
Proof.
  unfold recolor. destruct (get_random_color g), (get_random_color g'). tauto.
Qed.

Lemma wall_correction_motion w c sq sq' (g g' : G) :
  same_motion sq sq' ->
  same_motion (wall_correction w c sq g).1 (wall_correction w c sq' g').1.
Proof.
  intros (Hs & Hp & Hv). unfold wall_correction.
  destruct (onWall c); [|repeat split; assumption].
  apply recolor_motion. rewrite Hs, Hp, Hv. repeat split; reflexivity.
Qed.

Lemma floor_correction_motion w c sq sq' (g g' : G) :
  same_motion sq sq' ->
  same_motion (floor_correction w c sq g).1 (floor_correction w c sq' g').1.
Proof.
  intros (Hs & Hp & Hv). unfold floor_correction.
  destruct (onFloor c); [|repeat split; assumption].
  rewrite Hs, Hp, Hv. destruct (gt _ _).
  - apply recolor_motion. repeat split; reflexivity.
  - repeat split; reflexivity.
Qed.

Lemma ceiling_correction_motion w c sq sq' (g g' : G) :
  same_motion sq sq' ->
  same_motion (ceiling_correction w c sq g).1 (ceiling_correction w c sq' g').1.
Proof.
  intros (Hs & Hp & Hv). unfold ceiling_correction.
  destruct (onCeiling c); [|repeat split; assumption].
  apply recolor_motion. rewrite Hs, Hp, Hv. repeat split; reflexivity.
Qed.

(** The motion of a loop turn does not depend on the generator, nor on the
    colour of the square. *)
Lemma updated_motion w sq (g g' : G) :
  same_motion (updated w sq g) (updated w sq g').
Proof.
  rewrite !updated_phases. unfold update_in_phases.
  set (c := classify (integrate w sq)).
  pose proof (wall_correction_motion w c (integrate w sq) (integrate w sq) g g'
                ltac:(repeat split; reflexivity)) as H1.
  destruct (wall_correction w c (integrate w sq) g) as [sq1 g1].
  destruct (wall_correction w c (integrate w sq) g') as [sq1' g1'].
  cbn [fst] in H1.
  pose proof (floor_correction_motion w c sq1 sq1' g1 g1' H1) as H2.
  destruct (floor_correction w c sq1 g1) as [sq2 g2].
  destruct (floor_correction w c sq1' g1') as [sq2' g2'].
  cbn [fst] in H2.
  apply ceiling_correction_motion. exact H2.
Qed.

(** With distinct pointers every square of the collection gets one turn,
    and the objects outside the collection are left alone. *)
Lemma update_each_turns w (ps : list nat) (h h' : gmap nat Square) (g g' : G) :
  NoDup ps ->
  update_each w ps h g = Some (h', g') ->
  (forall p sq, p ∈ ps -> h !! p = Some sq ->
     exists g0, h' !! p = Some (updated w sq g0))
  /\ (forall q, q ∉ ps -> h' !! q = h !! q).
Proof.
  revert h g. induction ps as [|p ps IH]; intros h g Hnd; cbn.
  - intros [= <- <-]. split; [|reflexivity]. intros p sq Hp. inversion Hp.
  - apply NoDup_cons in Hnd as [Hp Hnd].
    destruct (h !! p) as [sq|] eqn:Hsq; cbn; [|discriminate].
    assert (Hup : (update_square w sq g).1.2 = updated w sq g) by reflexivity.
    destruct (update_square w sq g) as [[[] sq'] g1]. cbn in Hup. subst sq'.
    intros Hrun. destruct (IH _ _ Hnd Hrun) as [Hin Hout]. split.
    + intros q sq0 Hq Hq0. apply elem_of_cons in Hq as [->|Hq].
      * assert (sq0 = sq) as -> by congruence.
        exists g. rewrite (Hout p Hp). apply lookup_insert_eq.
      * apply Hin; [exact Hq|]. rewrite lookup_insert_ne; [exact Hq0|].
        intros ->. contradiction.
    + intros q Hq. apply not_elem_of_cons in Hq as [Hne Hq].
      rewrite (Hout q Hq). apply lookup_insert_ne. congruence.
Qed.

End Running.

(** ** The single-square program *)

Section SingleSquareFacts.

Context {G : Type} `{RandomSource G}.

Lemma update_gSquare_turn w : update_gSquare w = update_square w.
Proof. reflexivity. Qed.

Lemma update_as_update_squares (s : Single G) (square : nat) :
  gSquare s = Some square -> gSquares (multi s) = [square] ->
  option_map multi (update s) = update_squares (multi s)
  /\ draw s = draw_squares (multi s)
  /\ (forall s', update s = Some s' -> gSquare s' = Some square).
Proof.
  intros Hp Hs. unfold update, update_squares, draw, draw_squares.
  rewrite Hp, Hs, update_gSquare_turn. cbn [mbind option_bind update_each draw_each].
  destruct (heap (multi s) !! square) as [sq|]; cbn [mbind option_bind option_map];
    [|repeat split; try reflexivity; discriminate].
  destruct (update_square (gWorld (multi s)) sq (gen (multi s))) as [[[] sq'] g'].
  cbn [mbind option_bind option_map multi app].
  repeat split; try reflexivity. intros s' [= <-]. reflexivity.
Qed.

Lemma init_square_spec (s : Single G) :
  exists sq g',
    freshly_built sq
    /\ init_square s
       = mkSingle (mkGlobals (gWindow (multi s)) (gRenderer (multi s)) (gSquares (multi s))
                             (gWorld (multi s)) (gBackgroundColor (multi s))
                             (<[next_ptr (multi s) := sq]> (heap (multi s)))
                             (S (next_ptr (multi s))) g')
                  (Some (next_ptr (multi s))).
Proof.
  unfold init_square.
  pose proof (get_random_velocity_range (gen (multi s))) as Hv.
  destruct (get_random_velocity (gen (multi s))) as [v g1].
  pose proof (get_random_color_opaque g1) as Hc.
  destruct (get_random_color g1) as [c g2].
  cbn in *. eexists _, _. split; [|reflexivity].
  repeat split; try apply Hv; try apply Hc.
Qed.

End SingleSquareFacts.

Section SingleSquareFacts2.

Context {G : Type} `{RandomSource G}.

Lemma reinit_square_replaces (s : Single G) :
  (forall p, is_Some (heap (multi s) !! p) -> p < next_ptr (multi s)) ->
  (forall p, gSquare s = Some p -> is_Some (heap (multi s) !! p)) ->
  exists s' sq,
    reinit_square s = Some s'
    /\ gSquare s' = Some (next_ptr (multi s))
    /\ heap (multi s') !! next_ptr (multi s) = Some sq
    /\ freshly_built sq
    /\ (forall p, gSquare s = Some p -> heap (multi s') !! p = None)
    /\ (forall q, gSquare s <> Some q -> q <> next_ptr (multi s) ->
          heap (multi s') !! q = heap (multi s) !! q).
Proof.
  intros Hbound Hlive. unfold reinit_square.
  destruct (gSquare s) as [p|] eqn:Hp; cbn [delete_ptr].
  - destruct (Hlive p eq_refl) as [sq0 Hsq0]. rewrite Hsq0. cbn [mbind option_bind].
    set (s0 := mkSingle _ _).
    destruct (init_square_spec s0) as (sq & g' & Hsq & Hinit).
    exists (init_square s0), sq. rewrite Hinit. cbn.
    assert (Hne : p <> next_ptr (multi s)).
    { assert (p < next_ptr (multi s)) by (apply Hbound; rewrite Hsq0; eauto). lia. }
    split; [reflexivity|]. split; [reflexivity|].
    split; [apply lookup_insert_eq|]. split; [exact Hsq|]. split.
    + intros q [= <-]. rewrite lookup_insert_ne by congruence. apply lookup_delete_eq.
    + intros q Hq Hq'. rewrite lookup_insert_ne by congruence.
      apply lookup_delete_ne. congruence.
  - cbn [mbind option_bind]. set (s0 := mkSingle _ _).
    destruct (init_square_spec s0) as (sq & g' & Hsq & Hinit).
    exists (init_square s0), sq. rewrite Hinit. cbn.
    split; [reflexivity|]. split; [reflexivity|].
    split; [apply lookup_insert_eq|]. split; [exact Hsq|]. split.
    + intros q [=].
    + intros q _ Hq'. apply lookup_insert_ne. congruence.
Qed.

(** [close] leaves [gSquare] dangling: any later use of it is undefined. *)
Lemma close_leaves_dangling (s s' : Single G) (p : nat) :
  gSquare s = Some p -> close s = Some s' ->
  gSquare s' = Some p
  /\ heap (multi s') !! p = None
  /\ update s' = None /\ draw s' = None /\ reinit_square s' = None /\ close s' = None.
Proof.
  intros Hp. unfold close. rewrite Hp. cbn [delete_ptr].
  destruct (heap (multi s) !! p) as [sq|]; cbn [mbind option_bind]; [|discriminate].
  intros [= <-].
  unfold update, draw, reinit_square, close. cbn [gSquare multi heap set_squares delete_ptr].
  cbn [mbind option_bind]. rewrite !lookup_delete_eq. repeat split; reflexivity.
Qed.

Lemma main_loop_exit_returns (frames : list (list SDL_Event)) (n : nat) (st : Globals G) :
  (exists k, main_loop frames n st = Returned 0 k) <-> is_Some (main_loop_exit frames st).
Proof.
  revert n st. induction frames as [|events later IH]; intros n st; cbn.
  - split; [intros [k Hk]; discriminate|intros [x Hx]; discriminate].
  - destruct (frame events st) as [[[quit calls] st']|].
    + destruct quit; [|apply IH]. split; eauto.
    + split; [intros [k Hk]; discriminate|intros [x Hx]; discriminate].
Qed.

Lemma main_loop_exit_reachable (frames : list (list SDL_Event)) (st st' : Globals G) :
  reachable st -> main_loop_exit frames st = Some st' -> reachable st'.
Proof.
  revert st. induction frames as [|events later IH]; intros st Hreach; cbn.
  - discriminate.
  - destruct (frame events st) as [[[quit calls] st1]|] eqn:Hframe; [|discriminate].
    assert (Hreach1 : reachable st1) by (eapply reach_frame; eassumption).
    destruct quit; [intros [= <-]; exact Hreach1|]. apply IH. exact Hreach1.
Qed.



End SingleSquareFacts2.

(** ** Squares at rest *)

Section AtRest.

Context {G : Type} `{RandomSource G}.

(** A square at rest on the floor whose integrated position meets the
    ceiling does not stay where it is: the turn ends at y = 0, and it
    started below. *)
Lemma rest_under_ceiling_moves (sq : Square) (g : G) :
  (vy (m_velocity sq) =? 0)%float = true ->
  (vy (m_position sq) =? of_int gScreenHeight - vy (m_size sq))%float = true ->
  onCeiling (classify (integrate World_default sq)) = true ->
  vy (m_position (updated World_default sq g)) = 0%float
  /\ (vy (m_position (updated World_default sq g)) =? vy (m_position sq))%float = false.
Proof.
  destruct sq as [[sx sy] [px py] [ux uy] c]. cbn [m_velocity m_position m_size m_color vx vy].
  intros Huy Hfloor Hceil.
  assert (Hy : vy (m_position (updated World_default
                 (mkSquare (mkVec2 sx sy) (mkVec2 px py) (mkVec2 ux uy) c) g)) = 0%float).
  { rewrite updated_phases. unfold update_in_phases.
    destruct (wall_correction _ _ _ _) as [sq1 g1].
    destruct (floor_correction _ _ _ _) as [sq2 g2].
    unfold ceiling_correction. rewrite Hceil.
    unfold recolor. destruct (get_random_color g2). reflexivity. }
  split; [exact Hy|]. rewrite Hy.
  unfold classify, integrate in Hceil.
  cbn [onCeiling m_velocity m_position m_size m_color vx vy World_default gravity] in Hceil.
  assert (Hvy : (uy + 0.5)%float = 0.5%float).
  { destruct (DoubleFacts.eqb_zero_cases uy Huy) as [-> | ->]; reflexivity. }
  rewrite Hvy in Hceil.
  exact (add_half_le py _ Hfloor Hceil).
Qed.

(** A 100x100 square at rest on the floor, the size of every square the
    program builds, has its integrated position below the ceiling line. *)
Lemma rest_of_built_size (sq : Square) :
  m_size sq = mkVec2 100 100 ->
  (vy (m_velocity sq) =? 0)%float = true ->
  (vy (m_position sq) =? of_int gScreenHeight - vy (m_size sq))%float = true ->
  onCeiling (classify (integrate World_default sq)) = false.
Proof.
  destruct sq as [[sx sy] [px py] [ux uy] c]. cbn [m_velocity m_position m_size m_color vx vy].
  intros [= -> ->] Huy Hfloor.
  rewrite DoubleFacts.eqb_sym in Hfloor.
  change (of_int gScreenHeight - 100)%float with 380%float in Hfloor.
  pose proof (DoubleFacts.eqb_pos_eq 380 py eq_refl Hfloor) as <-.
  unfold classify, integrate.
  cbn [onCeiling m_velocity m_position m_size m_color vx vy World_default gravity].
  destruct (DoubleFacts.eqb_zero_cases uy Huy) as [-> | ->]; reflexivity.
Qed.

End AtRest.

(** * The properties of the specification *)

Section Properties.

Context {G : Type} `{RandomSource G}.

(** C1.  One loop turn on a 100x100 square at (270,200) with velocity (0,0),
    under the default world on the 640x480 screen, leaves velocity (0,0.5)
    and position (270,200.5); the integrated square touches no wall, floor
    or ceiling, so its colour and the generator are left as they were.  The
    same holds for [update_squares] on a collection holding that one
    square. *)
Theorem C1_one_frame_from_270_200 (c : Color) (g : G) (square : ptr) :
  let sq := mkSquare (mkVec2 100 100) (mkVec2 270 200) (mkVec2 0 0) c in
  let sq' := mkSquare (mkVec2 100 100) (mkVec2 270 200.5) (mkVec2 0 0.5) c in
  update_square World_default sq g = (tt, sq', g)
  /\ classify (integrate World_default sq) = mkContacts false false false false
  /\ update_squares
       (mkGlobals None None [square] World_default Color_default
                  {[square := sq]} (S square) g)
     = Some (mkGlobals None None [square] World_default Color_default
                       {[square := sq']} (S square) g).
Proof.
  intros sq sq'.
  assert (Hone : update_square World_default sq g = (tt, sq', g))
    by (rewrite update_square_phases; reflexivity).
  split; [exact Hone|]. split; [reflexivity|].
  unfold update_squares. cbn [gWorld gSquares heap gen update_each].
  rewrite lookup_singleton_eq. cbn [mbind option_bind].
  rewrite Hone. cbn. rewrite insert_singleton_eq. reflexivity.
Qed.

(** C2 (amended).  A square of width 100 at x = 560 with horizontal
    velocity 5 reaches the right wall: it ends the turn at x = 540, hence
    x <= 540, and its horizontal velocity is -0.9 times the velocity it had
    just before the wall damping, unless the floor friction branch runs in
    the same turn, which multiplies that result by 0.95. *)
Theorem C2_right_wall_bounce (sy py uy : double) (c : Color) (g : G) :
  let sq := mkSquare (mkVec2 100 sy) (mkVec2 560 py) (mkVec2 5 uy) c in
  let sq0 := integrate World_default sq in
  let pre_clamp := vx (m_velocity sq0) in
  let friction := onFloor (classify sq0) && negb (gt (vy (m_velocity sq0)) 0.5) in
  let sq' := updated World_default sq g in
  onRightWall (classify sq0) = true
  /\ vx (m_position sq') = 540%float
  /\ le (vx (m_position sq')) 540 = true
  /\ vx (m_velocity sq') =
       if friction then (-0.9 * pre_clamp * 0.95)%float else (-0.9 * pre_clamp)%float.
Proof.
  intros sq sq0 pre_clamp friction sq'.
  assert (Hx : vx (m_position sq') = 540%float
               /\ vx (m_velocity sq') =
                    if friction then (-0.9 * pre_clamp * 0.95)%float
                    else (-0.9 * pre_clamp)%float).
  { subst sq' friction pre_clamp sq0 sq. rewrite updated_phases.
    unfold update_in_phases, wall_correction, floor_correction, ceiling_correction,
      recolor, onWall, classify, integrate. cbn.
    unfold ge, le, gt. split_contacts; try discriminate; split; reflexivity. }
  destruct Hx as [Hpos Hvel].
  split; [reflexivity|]. split; [exact Hpos|]. split; [|exact Hvel].
  rewrite Hpos. reflexivity.
Qed.

(** C3.  When the integrated square is on the floor and its vertical
    velocity at the floor check is at most 0.5, the turn ends with a
    vertical velocity equal to zero and a horizontal velocity 0.95 times
    the one the square had at the floor check, that is, the velocity the
    friction statement reads: the velocity before the turn, after air
    resistance and, at a wall, after the wall damping. *)
Theorem C3_floor_friction (sq : Square) (g : G) :
  let sq0 := integrate World_default sq in
  let at_floor_check := (wall_correction World_default (classify sq0) sq0 g).1 in
  let sq' := updated World_default sq g in
  ge (vy (m_position sq0)) (of_int gScreenHeight - vy (m_size sq0)) = true ->
  le (vy (m_velocity at_floor_check)) 0.5 = true ->
  (vy (m_velocity sq') =? 0)%float = true
  /\ vx (m_velocity sq') = (0.95 * vx (m_velocity at_floor_check))%float
  /\ vx (m_velocity at_floor_check)
     = if onWall (classify sq0)
       then (vx (m_velocity sq) * 0.995 * - 0.9)%float
       else (vx (m_velocity sq) * 0.995)%float.
Proof.
  intros sq0 at_floor_check sq' Hfloor Hslow.
  assert (Hold : vx (m_velocity at_floor_check)
                 = if onWall (classify sq0)
                   then (vx (m_velocity sq) * 0.995 * - 0.9)%float
                   else (vx (m_velocity sq) * 0.995)%float).
  { subst at_floor_check. unfold wall_correction, recolor.
    destruct (onWall (classify sq0)); [|reflexivity].
    destruct (get_random_color g). reflexivity. }
  split; [|split; [|exact Hold]]; clear Hold.
  all: subst sq' at_floor_check sq0; rewrite updated_phases; unfold update_in_phases.
  all: set (sq0 := integrate World_default sq) in *.
  all: destruct (wall_correction World_default (classify sq0) sq0 g) as [sq1 g1].
  all: cbn [fst] in Hslow.
  all: apply DoubleFacts.le_not_gt in Hslow.
  all: unfold floor_correction.
  all: replace (onFloor (classify sq0)) with true by (symmetry; exact Hfloor).
  all: rewrite Hslow; unfold ceiling_correction, recolor.
  all: try rewrite (DoubleFacts.mul_comm 0.95).
  all: destruct (onCeiling (classify sq0)); [|reflexivity].
  all: destruct (get_random_color g1) as [c2 g2]; reflexivity.
Qed.

(** C4 (amended).  A square at rest on the floor (position.y == screenHeight
    - size.y, velocity == (0,0), zeros of either sign), strictly between the
    two walls, whose integrated position does not meet the ceiling
    (position.y + gravity > 0, as for every square no taller than the
    screen), is left where it is by a loop turn: gravity brings its vertical
    velocity to exactly 0.5, which is not greater than 0.5, so the friction
    branch runs and sets the vertical velocity back to 0; the floor clamp
    puts it on the floor line, where it was, and nothing is drawn from the
    generator.  The position and the velocity compare equal to those before
    the turn, and are the very same doubles when position.y > 0 and the
    velocity is (+0,+0). *)
Theorem C4_rest_on_floor_is_kept (sq : Square) (g : G) :
  (vx (m_velocity sq) =? 0)%float = true ->
  (vy (m_velocity sq) =? 0)%float = true ->
  (vy (m_position sq) =? of_int gScreenHeight - vy (m_size sq))%float = true ->
  lt 0 (vx (m_position sq)) = true ->
  lt (vx (m_position sq)) (of_int gScreenWidth - vx (m_size sq)) = true ->
  onCeiling (classify (integrate World_default sq)) = false ->
  let sq0 := integrate World_default sq in
  let sq' := updated World_default sq g in
  vy (m_velocity sq0) = 0.5%float
  /\ gt (vy (m_velocity sq0)) 0.5 = false
  /\ classify sq0 = mkContacts false false true false
  /\ sq' = mkSquare (m_size sq)
                    (mkVec2 (vx (m_position sq)) (of_int gScreenHeight - vy (m_size sq)))
                    (mkVec2 (vx (m_velocity sq)) 0) (m_color sq)
  /\ vx (m_position sq') = vx (m_position sq)
  /\ (vy (m_position sq') =? vy (m_position sq))%float = true
  /\ (vx (m_velocity sq') =? 0)%float = true
  /\ (vy (m_velocity sq') =? 0)%float = true
  /\ generator_after World_default sq g = g
  /\ (lt 0 (vy (m_position sq)) = true -> m_position sq' = m_position sq)
  /\ (m_velocity sq = mkVec2 0 0 -> m_velocity sq' = mkVec2 0 0)
  /\ (lt 0 (vy (m_position sq)) = true -> m_velocity sq = mkVec2 0 0 -> sq' = sq).
Proof.
  destruct sq as [[sx sy] [px py] [ux uy] c]. cbn [m_velocity m_position m_size m_color vx vy].
  intros Hux Huy Hfloor Hleft Hright Hceil.
  set (sq0 := integrate World_default _) in *.
  change (of_int gScreenHeight) with 480%float in *.
  change (of_int gScreenWidth) with 640%float in *.
  pose proof (DoubleFacts.lt_not_ge _ _ Hleft) as Hl.
  pose proof (DoubleFacts.lt_not_ge _ _ Hright) as Hr.
  assert (Hvx : (ux * 0.995)%float = ux /\ (ux * 0.95)%float = ux).
  { destruct (DoubleFacts.eqb_zero_cases ux Hux) as [-> | ->]; split; reflexivity. }
  assert (Hvy : (uy + 0.5)%float = 0.5%float).
  { destruct (DoubleFacts.eqb_zero_cases uy Huy) as [-> | ->]; reflexivity. }
  destruct Hvx as [Hair Hfriction].
  assert (Hsq0 : sq0 = mkSquare (mkVec2 sx sy) (mkVec2 px (py + 0.5)) (mkVec2 ux 0.5) c).
  { unfold sq0, integrate. cbn [m_velocity m_position m_size m_color vx vy World_default
                                gravity air_resistance].
    rewrite Hair, Hvy, (DoubleFacts.add_signed_zero_pos px ux Hleft Hux). reflexivity. }
  rewrite Hsq0 in Hceil. unfold classify in Hceil.
  cbn [onCeiling m_position vy] in Hceil.
  pose proof (add_half_ge py (480 - sy) Hfloor Hceil) as Hon.
  assert (Hc : classify sq0 = mkContacts false false true false).
  { rewrite Hsq0. unfold classify. cbn [m_position m_size vx vy].
    unfold ge, le in *. rewrite Hl, Hr, Hon, Hceil. reflexivity. }
  assert (Hrun : update_in_phases World_default
                   (mkSquare (mkVec2 sx sy) (mkVec2 px py) (mkVec2 ux uy) c) g
                 = (mkSquare (mkVec2 sx sy) (mkVec2 px (480 - sy)) (mkVec2 ux 0) c, g)).
  { unfold update_in_phases. fold sq0. rewrite Hc, Hsq0.
    unfold wall_correction, floor_correction, ceiling_correction, onWall.
    cbn [onRightWall onLeftWall onFloor onCeiling orb m_velocity m_position m_size m_color
         vx vy].
    change (gt 0.5 0.5) with false. cbn iota. rewrite Hfriction. reflexivity. }
  rewrite updated_phases, generator_after_phases, Hrun, Hc, Hsq0.
  cbn [fst snd m_velocity m_position m_size m_color vx vy].
  split; [reflexivity|]. split; [reflexivity|]. split; [reflexivity|].
  split; [reflexivity|]. split; [reflexivity|].
  split; [rewrite DoubleFacts.eqb_sym; exact Hfloor|].
  split; [exact Hux|]. split; [reflexivity|]. split; [reflexivity|].
  split; [|split].
  - intros Hbelow. rewrite <- (DoubleFacts.eqb_pos_eq _ _ Hbelow Hfloor). reflexivity.
  - intros [= -> ->]. reflexivity.
  - intros Hbelow [= -> ->].
    rewrite <- (DoubleFacts.eqb_pos_eq _ _ Hbelow Hfloor). reflexivity.
Qed.

(** C5.  The loop turn is the phased update: the four contact flags are
    computed once, from the integrated square before any clamp, and the
    wall, floor and ceiling corrections then run in that order on those
    flags.  Several flags can hold together: an oversized square meets
    both walls, the floor and the ceiling in one turn and ends where the
    last clamp of each axis puts it.  The flags are not taken again after
    a clamp: a square of the screen's height that the floor clamp moves to
    y = 0 is not given the ceiling correction. *)
Theorem C5_one_classification_fixed_order :
  (forall (w : World) (sq : Square) (g : G),
     update_square w sq g
     = (tt, (update_in_phases w sq g).1, (update_in_phases w sq g).2))
  /\ (forall (c : Color) (g : G),
        let sq := mkSquare (mkVec2 700 500) (mkVec2 (-10) (-10)) (mkVec2 2 3) c in
        let sq' := updated World_default sq g in
        classify (integrate World_default sq) = mkContacts true true true true
        /\ m_position sq' = mkVec2 (-60) 0
        /\ m_velocity sq' = mkVec2 (2 * 0.995 * - 0.9) ((3 + 0.5) * - 0.9 * - 0.9))
  /\ (forall (c : Color) (g : G),
        let sq := mkSquare (mkVec2 100 480) (mkVec2 270 5) (mkVec2 0 0) c in
        let sq' := updated World_default sq g in
        classify (integrate World_default sq) = mkContacts false false true false
        /\ sq' = mkSquare (mkVec2 100 480) (mkVec2 270 0) (mkVec2 0 0) c
        /\ generator_after World_default sq g = g
        /\ onCeiling (classify sq') = true).
Proof.
  split; [exact update_square_phases|]. split.
  - intros c g sq sq'. subst sq' sq. rewrite updated_phases.
    split; [reflexivity|].
    unfold update_in_phases, wall_correction, floor_correction,
      ceiling_correction, recolor. cbn.
    destruct (get_random_color g) as [c1 g1]; cbn.
    destruct (get_random_color g1) as [c2 g2]; cbn.
    destruct (get_random_color g2) as [c3 g3]; cbn.
    split; reflexivity.
  - intros c g sq sq'. subst sq' sq.
    rewrite updated_phases, generator_after_phases.
    repeat split; reflexivity.
Qed.

(** C6.  A reset of a well-formed collection succeeds and leaves exactly
    four distinct squares; each is a new object, absent from the collection
    before the reset, of size (100,100), at the centre (320,240) of the
    screen, with both velocity components within [-20,20]; every square of the
    collection before the reset has been released and is in it no more.  The
    velocity of the i-th square is freshly drawn: it is what
    [get_random_velocity] returns at the generator the reset has reached
    after building i squares, two successive draws of [get_random_int] from
    -20 to 20; the reset leaves the generator after the draws of four
    squares. *)
Theorem C6_reset_rebuilds_collection (st : Globals G) :
  well_formed st ->
  exists st',
    reinit_squares st = Some st'
    /\ length (gSquares st') = 4
    /\ NoDup (gSquares st')
    /\ (forall p, p ∈ gSquares st' ->
          (p ∉ gSquares st)
          /\ exists sq, heap st' !! p = Some sq
               /\ m_size sq = mkVec2 100 100
               /\ m_position sq = mkVec2 (of_int (gScreenWidth ÷ 2)) (of_int (gScreenHeight ÷ 2))
               /\ m_position sq = mkVec2 320 240
               /\ in_velocity_range (m_velocity sq))
    /\ (forall p, p ∈ gSquares st -> heap st' !! p = None /\ (p ∉ gSquares st'))
    /\ (forall i, i < 4 ->
          let g_i := generator_after_squares i (gen st) in
          let x := (get_random_int (-20) 20 g_i).1 in
          let y := (get_random_int (-20) 20 (get_random_int (-20) 20 g_i).2).1 in
          exists p sq,
            gSquares st' !! i = Some p /\ heap st' !! p = Some sq
            /\ m_velocity sq = (get_random_velocity g_i).1
            /\ m_velocity sq = mkVec2 (of_int x) (of_int y)
            /\ (-20 <= x <= 20)%Z /\ (-20 <= y <= 20)%Z)
    /\ gen st' = generator_after_squares 4 (gen st).
Proof.
  intros Hwf.
  destruct (reinit_squares_spec st Hwf)
    as (st' & Hrun & Hs & Hn & Hgone & Hnew & Hkept & Hhigh).
  assert (Hdraws : gen st' = generator_after_squares 4 (gen st)
            /\ forall i, i < 4 ->
                 exists sq, heap st' !! (next_ptr st + i) = Some sq
                   /\ m_velocity sq
                      = (get_random_velocity (generator_after_squares i (gen st))).1).
  { revert Hrun. unfold reinit_squares.
    destruct (delete_each (gSquares st) (heap st)) as [h|]; cbn [mbind option_bind];
      [|discriminate].
    intros [= <-].
    exact (init_squares_from_draws gNumSquares (set_squares st [] h (next_ptr st) (gen st))). }
  destruct Hdraws as [Hgen Hdraws].
  destruct Hwf as (Hnd & Hlive & Hbound).
  assert (Hold : forall p, p ∈ gSquares st -> p < next_ptr st)
    by (intros p Hp; apply Hbound, Hlive, Hp).
  exists st'. split; [exact Hrun|].
  split; [rewrite Hs; apply length_seq|].
  split; [rewrite Hs; apply NoDup_seq|]. split; [|split; [|split; [|exact Hgen]]].
  - intros p Hp. split.
    + intros Hin. apply Hold in Hin. rewrite Hs in Hp. apply elem_of_seq in Hp. lia.
    + destruct (Hnew p Hp) as (sq & Hsq & Hsize & Hpos & Hvel & _).
      exists sq. split; [exact Hsq|]. split; [exact Hsize|].
      split; [exact Hpos|]. split; [exact Hpos|exact Hvel].
  - intros p Hp. split; [apply Hgone, Hp|].
    rewrite Hs. intros Hin. apply elem_of_seq in Hin. apply Hold in Hp. lia.
  - intros i Hi g_i x y.
    destruct (Hdraws i Hi) as (sq & Hsq & Hv).
    destruct (get_random_velocity_draws g_i) as (Hxy & Hx & Hy).
    exists (next_ptr st + i), sq.
    split; [rewrite Hs; apply lookup_seq; split; [reflexivity|exact Hi]|].
    split; [exact Hsq|]. split; [exact Hv|].
    split; [rewrite Hv; exact Hxy|]. split; [exact Hx|exact Hy].
Qed.

(** C7.  [init] fails, and [main] returns 1 before its loop, exactly when
    [SDL_Init] fails.  The results of [SDL_CreateWindow] and of
    [SDL_CreateRenderer] are stored and never tested: when either is null the
    program enters the loop all the same, and a run of [main] returns 0 or
    does not return. *)
Theorem C7_window_failure_is_not_detected :
  (forall (code : Z) (w r : handle) (frames : list (list SDL_Event)) (seed : G),
     code <> 0%Z -> main (mkSDL code w r) frames seed = Returned 1 0)
  /\ (forall (w r : handle) (seed : G),
        main (mkSDL 0 w r) [[SDL_QUIT]] seed = Returned 0 1)
  /\ (forall (w r : handle) (frames : list (list SDL_Event)) (seed : G) (code : Z) (k : nat),
        main (mkSDL 0 w r) frames seed = Returned code k -> code = 0%Z /\ 0 < k).
Proof.
  split; [|split].
  - intros code w r frames seed Hcode. unfold main, init.
    cbn [SDL_Init_result]. rewrite (proj2 (Z.eqb_neq code 0) Hcode). reflexivity.
  - intros w r seed. unfold main, init. cbn [SDL_Init_result Z.eqb negb].
    cbn [main_loop Z.eqb].
    set (st := init_squares _).
    destruct (frame_invariant [SDL_QUIT] st) as (quit & calls & st' & Hrun & _).
    { apply init_squares_invariant. apply globals_at_start_invariant. }
    rewrite Hrun.
    rewrite (frame_quit _ _ _ _ _ Hrun). reflexivity.
  - intros w r frames seed code k. unfold main, init.
    cbn [SDL_Init_result Z.eqb negb]. apply main_loop_code.
Qed.

(** C8.  No loop turn changes the size of a square.  At the top of every
    turn of the loop of [main] each square of the collection has the size
    (100,100) it was built with, both components positive.  A whole frame,
    with its events and resets, its rendering and its update, runs to its
    end, and every object alive before and after it has kept its size. *)
Theorem C8_size_is_constant :
  (forall (w : World) (sq : Square) (g : G), m_size (updated w sq g) = m_size sq)
  /\ (forall st : Globals G, reachable st ->
        forall p, p ∈ gSquares st ->
          exists sq, heap st !! p = Some sq
            /\ m_size sq = mkVec2 100 100
            /\ lt 0 (vx (m_size sq)) = true /\ lt 0 (vy (m_size sq)) = true)
  /\ (forall (st : Globals G) (events : list SDL_Event), reachable st ->
        exists quit calls st',
          frame events st = Some (quit, calls, st')
          /\ forall p sq sq',
               heap st !! p = Some sq -> heap st' !! p = Some sq' ->
               m_size sq' = m_size sq).
Proof.
  split; [exact updated_size|]. split.
  - intros st Hreach p Hp.
    destruct (reachable_invariant st Hreach) as [_ Hbodies].
    destruct (Hbodies p Hp) as (sq & Hsq & Hsize & _).
    exists sq. rewrite Hsize. repeat split; first [exact Hsq | reflexivity].
  - intros st events Hreach.
    pose proof (reachable_invariant st Hreach) as Hinv.
    destruct (frame_invariant events st Hinv) as (quit & calls & st' & Hrun & _ & Hstep).
    exists quit, calls, st'. split; [exact Hrun|].
    intros p sq sq' Hsq Hsq'.
    destruct Hinv as [(_ & _ & Hbound) _]. destruct Hstep as [_ Hstep].
    specialize (Hstep p ltac:(apply Hbound; rewrite Hsq; eauto)).
    rewrite Hsq in Hstep. apply (Hstep sq' Hsq').
Qed.

(** C9.  A drawn colour has its red, green and blue channels within [0,255]
    and its alpha channel equal to 255.  A loop turn leaves a square the
    colour it had or such a colour, and at the top of every turn of the loop
    of [main] every square of the collection has one. *)
Theorem C9_random_colors_are_opaque :
  (forall g : G,
     let c := (get_random_color g).1 in
     (0 <= red c <= 255)%Z /\ (0 <= green c <= 255)%Z /\ (0 <= blue c <= 255)%Z
     /\ alpha c = 255%Z)
  /\ (forall (w : World) (sq : Square) (g : G),
        m_color (updated w sq g) = m_color sq
        \/ opaque_rgba (m_color (updated w sq g)))
  /\ (forall st : Globals G, reachable st ->
        forall p, p ∈ gSquares st ->
          exists sq, heap st !! p = Some sq /\ opaque_rgba (m_color sq)).
Proof.
  split; [exact get_random_color_opaque|]. split; [exact updated_color|].
  intros st Hreach p Hp.
  destruct (reachable_invariant st Hreach) as [_ Hbodies].
  destruct (Hbodies p Hp) as (sq & Hsq & _ & Hc). eauto.
Qed.

(** C10.  When the integrated square touches no wall, floor or ceiling,
    the turn changes the position and the velocity only: the square it
    leaves is the integrated one, with the colour and the size it had, and
    the generator is not drawn from. *)
Theorem C10_free_flight_keeps_color_and_size (w : World) (sq : Square) (g : G) :
  let c := classify (integrate w sq) in
  onWall c = false -> onFloor c = false -> onCeiling c = false ->
  m_color (updated w sq g) = m_color sq
  /\ m_size (updated w sq g) = m_size sq
  /\ updated w sq g = integrate w sq
  /\ generator_after w sq g = g.
Proof.
  intros c Hwall Hfloor Hceil. subst c.
  rewrite updated_phases, generator_after_phases.
  unfold update_in_phases, wall_correction, floor_correction, ceiling_correction.
  rewrite Hwall, Hfloor, Hceil. repeat split; reflexivity.
Qed.

End Properties.

(** * Instances of the properties *)

(** C2 as first stated fails for a square resting on the floor: the wall
    bounce and the floor friction both act on the horizontal velocity, which
    does not end at -0.9 times its value before the wall damping. *)
Lemma C2_sliding_square_counterexample :
  let sq := mkSquare (mkVec2 100 100) (mkVec2 560 380) (mkVec2 5 0) Color_default in
  let pre_clamp := vx (m_velocity (integrate World_default sq)) in
  let sq' := updated World_default sq 7%Z in
  vx (m_size sq) = 100%float /\ vx (m_position sq) = 560%float
  /\ vx (m_velocity sq) = 5%float
  /\ le (vx (m_position sq')) 540 = true
  /\ (vx (m_velocity sq') =? -0.9 * pre_clamp)%float = false
  /\ vx (m_velocity sq') = (-0.9 * pre_clamp * 0.95)%float.
Proof. vm_compute. repeat split; reflexivity. Qed.

(** C3, at a square resting on the floor that slides to the right. *)
Lemma C3_floor_friction_witness :
  let sq := mkSquare (mkVec2 100 100) (mkVec2 270 380) (mkVec2 3 0) Color_default in
  let sq0 := integrate World_default sq in
  let at_floor_check := (wall_correction World_default (classify sq0) sq0 7%Z).1 in
  (ge (vy (m_position sq0)) (of_int gScreenHeight - vy (m_size sq0)) = true
   /\ le (vy (m_velocity at_floor_check)) 0.5 = true)
  /\ (vy (m_velocity (updated World_default sq 7%Z)) =? 0)%float = true
  /\ vx (m_velocity (updated World_default sq 7%Z))
     = (0.95 * vx (m_velocity at_floor_check))%float
  /\ vx (m_velocity at_floor_check)
     = if onWall (classify sq0)
       then (vx (m_velocity sq) * 0.995 * - 0.9)%float
       else (vx (m_velocity sq) * 0.995)%float.
Proof.
  split; [split; reflexivity|].
  apply (C3_floor_friction
           (mkSquare (mkVec2 100 100) (mkVec2 270 380) (mkVec2 3 0) Color_default) 7%Z);
    reflexivity.
Defined.

(** C4 as first stated fails for a square taller than the screen: it rests
    on the floor between the walls, the integrated square also meets the
    ceiling, and the turn moves it from y = -20 to y = 0. *)
Lemma C4_tall_square_counterexample :
  let sq := mkSquare (mkVec2 100 500) (mkVec2 270 (-20)) (mkVec2 0 0) Color_default in
  let sq' := updated World_default sq 7%Z in
  m_velocity sq = mkVec2 0 0
  /\ (vy (m_position sq) =? of_int gScreenHeight - vy (m_size sq))%float = true
  /\ lt 0 (vx (m_position sq)) = true
  /\ lt (vx (m_position sq)) (of_int gScreenWidth - vx (m_size sq)) = true
  /\ classify (integrate World_default sq) = mkContacts false false true true
  /\ m_position sq' = mkVec2 270 0
  /\ (vy (m_position sq') =? vy (m_position sq))%float = false.
Proof. vm_compute. repeat split; reflexivity. Qed.

(** C4, at a 100x100 square resting on the floor. *)
Lemma C4_rest_on_floor_witness :
  let sq := mkSquare (mkVec2 100 100) (mkVec2 123.25 380) (mkVec2 0 0) (mkColor 9 8 7 255) in
  let sq0 := integrate World_default sq in
  let sq' := updated World_default sq 7%Z in
  ((vx (m_velocity sq) =? 0)%float = true
   /\ (vy (m_velocity sq) =? 0)%float = true
   /\ (vy (m_position sq) =? of_int gScreenHeight - vy (m_size sq))%float = true
   /\ lt 0 (vx (m_position sq)) = true
   /\ lt (vx (m_position sq)) (of_int gScreenWidth - vx (m_size sq)) = true
   /\ onCeiling (classify sq0) = false)
  /\ vy (m_velocity sq0) = 0.5%float
  /\ gt (vy (m_velocity sq0)) 0.5 = false
  /\ classify sq0 = mkContacts false false true false
  /\ sq' = mkSquare (m_size sq)
                    (mkVec2 (vx (m_position sq)) (of_int gScreenHeight - vy (m_size sq)))
                    (mkVec2 (vx (m_velocity sq)) 0) (m_color sq)
  /\ vx (m_position sq') = vx (m_position sq)
  /\ (vy (m_position sq') =? vy (m_position sq))%float = true
  /\ (vx (m_velocity sq') =? 0)%float = true
  /\ (vy (m_velocity sq') =? 0)%float = true
  /\ generator_after World_default sq 7%Z = 7%Z
  /\ (lt 0 (vy (m_position sq)) = true -> m_position sq' = m_position sq)
  /\ (m_velocity sq = mkVec2 0 0 -> m_velocity sq' = mkVec2 0 0)
  /\ (lt 0 (vy (m_position sq)) = true -> m_velocity sq = mkVec2 0 0 -> sq' = sq).
Proof.
  split; [repeat split; reflexivity|].
  apply (C4_rest_on_floor_is_kept
           (mkSquare (mkVec2 100 100) (mkVec2 123.25 380) (mkVec2 0 0) (mkColor 9 8 7 255))
           7%Z); reflexivity.
Defined.

(** C6, at the collection [main] builds before its loop. *)
Lemma C6_reset_witness :
  let st := init_squares (globals_at_start 42%Z) in
  well_formed st
  /\ exists st',
       reinit_squares st = Some st'
       /\ length (gSquares st') = 4
       /\ NoDup (gSquares st')
       /\ (forall p, p ∈ gSquares st' ->
             (p ∉ gSquares st)
             /\ exists sq, heap st' !! p = Some sq
                  /\ m_size sq = mkVec2 100 100
                  /\ m_position sq = mkVec2 (of_int (gScreenWidth ÷ 2)) (of_int (gScreenHeight ÷ 2))
                  /\ m_position sq = mkVec2 320 240
                  /\ in_velocity_range (m_velocity sq))
       /\ (forall p, p ∈ gSquares st -> heap st' !! p = None /\ (p ∉ gSquares st'))
       /\ (forall i, i < 4 ->
             let g_i := generator_after_squares i (gen st) in
             let x := (get_random_int (-20) 20 g_i).1 in
             let y := (get_random_int (-20) 20 (get_random_int (-20) 20 g_i).2).1 in
             exists p sq,
               gSquares st' !! i = Some p /\ heap st' !! p = Some sq
               /\ m_velocity sq = (get_random_velocity g_i).1
               /\ m_velocity sq = mkVec2 (of_int x) (of_int y)
               /\ (-20 <= x <= 20)%Z /\ (-20 <= y <= 20)%Z)
       /\ gen st' = generator_after_squares 4 (gen st).
Proof.
  assert (Hwf : well_formed (init_squares (globals_at_start 42%Z))).
  { apply init_squares_invariant, globals_at_start_invariant. }
  split; [exact Hwf|].
  exact (C6_reset_rebuilds_collection (init_squares (globals_at_start 42%Z)) Hwf).
Defined.

(** C10, at a square in the middle of the screen. *)
Lemma C10_free_flight_witness :
  let sq := mkSquare (mkVec2 100 100) (mkVec2 320 240) (mkVec2 (-7) 12) (mkColor 1 2 3 255) in
  let c := classify (integrate World_default sq) in
  (onWall c = false /\ onFloor c = false /\ onCeiling c = false)
  /\ m_color (updated World_default sq 7%Z) = mkColor 1 2 3 255
  /\ m_size (updated World_default sq 7%Z) = mkVec2 100 100
  /\ updated World_default sq 7%Z = integrate World_default sq
  /\ generator_after World_default sq 7%Z = 7%Z.
Proof.
  split; [repeat split; reflexivity|].
  apply (C10_free_flight_keeps_color_and_size World_default
           (mkSquare (mkVec2 100 100) (mkVec2 320 240) (mkVec2 (-7) 12) (mkColor 1 2 3 255))
           7%Z); reflexivity.
Defined.

(** * Further properties *)

Section Further.

Context {G : Type} `{RandomSource G}.

(** X1.  Under the default world a loop turn keeps a 100x100 square on the
    screen: if it lies within the screen and its velocity components are
    numbers, the same holds after the turn, whatever the velocity. *)
Theorem X1_turn_keeps_square_on_screen (sq : Square) (g : G) :
  on_screen sq -> on_screen (updated World_default sq g).
Proof. apply updated_on_screen. Qed.

(** X2.  At the top of every turn of the loop of [main] the world is the
    default one and every square of the collection is a 100x100 square
    within the screen whose velocity components are numbers. *)
Theorem X2_squares_stay_on_screen (st : Globals G) :
  reachable st ->
  gWorld st = World_default
  /\ forall p, p ∈ gSquares st ->
       exists sq, heap st !! p = Some sq /\ on_screen sq.
Proof.
  intros Hreach.
  destruct (reachable_full st Hreach) as (Hinv & _ & Hw & Hall).
  split; [exact Hw|]. intros p Hp.
  destruct Hinv as [(_ & Hlive & _) _]. destruct (Hlive p Hp) as [sq Hsq].
  exists sq. split; [exact Hsq|]. apply (Hall p sq Hsq).
Qed.


(** X4.  At the top of every turn of the loop of [main] the collection
    holds four distinct pointers, and the allocated squares are exactly the
    squares of the collection: no reset leaves a square behind. *)
Theorem X4_free_store_is_the_collection (st : Globals G) :
  reachable st ->
  length (gSquares st) = 4
  /\ NoDup (gSquares st)
  /\ forall p, is_Some (heap st !! p) <-> p ∈ gSquares st.
Proof.
  intros Hreach.
  destruct (reachable_full st Hreach) as (Hinv & [Hlen Hdom] & _).
  split; [exact Hlen|]. split; [apply Hinv|exact Hdom].
Qed.


(** X6.  When [SDL_Init] succeeds and no quit event arrives, [main] runs
    every frame it is given and is still in its loop. *)
Theorem X6_main_keeps_running_without_quit (sdl : SDL) (seed : G)
    (frames : list (list SDL_Event)) :
  SDL_Init_result sdl = 0%Z ->
  Forall (fun events => SDL_QUIT ∉ events) frames ->
  exists st, main sdl frames seed = Running (length frames) st.
Proof.
  intros Hok Hno. unfold main, init. rewrite Hok. cbn [Z.eqb negb].
  apply (main_loop_runs_on frames 0); [|exact Hno].
  apply init_squares_invariant. apply globals_at_start_invariant.
Qed.

(** X7.  Whatever SDL answers and whatever events arrive, [main] reads no
    released square and releases no square twice: it returns 1 before its
    loop, returns 0 after a frame, or is still in its loop. *)
Theorem X7_main_is_never_undefined (sdl : SDL) (frames : list (list SDL_Event)) (seed : G) :
  main sdl frames seed = Returned 1 0
  \/ (exists k, 0 < k /\ main sdl frames seed = Returned 0 k)
  \/ (exists k st, main sdl frames seed = Running k st).
Proof.
  unfold main, init. destruct (negb (SDL_Init_result sdl =? 0)%Z).
  - left. reflexivity.
  - right. cbn [Z.eqb].
    set (st := init_squares _).
    destruct (main_loop_defined frames 0 st) as [[k Hk]|Hrun].
    { apply init_squares_invariant. apply globals_at_start_invariant. }
    + left. exists k. split; [|exact Hk]. apply (main_loop_code _ _ _ _ _ Hk).
    + right. exact Hrun.
Qed.

(** X8.  At the top of a turn of the loop of [main] the event loop drains
    every pending event: the quit flag is set exactly when a quit event is
    among them, wherever it stands, and every SPACE key press resets the
    collection, which allocates four new squares each time. *)
Theorem X8_events_are_drained (st : Globals G) (events : list SDL_Event) :
  reachable st ->
  exists st',
    poll_events events false st = Some (bool_decide (SDL_QUIT ∈ events), st')
    /\ next_ptr st' = next_ptr st + 4 * resets events
    /\ (resets events = 0 -> st' = st)
    /\ (0 < resets events ->
        gSquares st' = seq (next_ptr st + 4 * (resets events - 1)) 4).
Proof.
  intros Hreach.
  exact (poll_events_resets events false st (reachable_invariant st Hreach)).
Qed.

(** X9.  [update_squares] on distinct pointers gives every square of the
    collection exactly one turn, computed from that square alone: its size,
    position and velocity afterwards are those of a loop turn on it, whatever
    the other squares and the generator are; objects outside the collection
    are not touched. *)
Theorem X9_turns_are_independent (st st' : Globals G) :
  NoDup (gSquares st) ->
  update_squares st = Some st' ->
  (forall p sq (g : G), p ∈ gSquares st -> heap st !! p = Some sq ->
     exists sq', heap st' !! p = Some sq'
       /\ same_motion sq' (updated (gWorld st) sq g))
  /\ (forall q, q ∉ gSquares st -> heap st' !! q = heap st !! q).
Proof.
  intros Hnd. unfold update_squares.
  destruct (update_each (gWorld st) (gSquares st) (heap st) (gen st)) as [[h g']|] eqn:Hup;
    cbn [mbind option_bind]; [|discriminate].
  intros [= <-]. cbn [heap set_squares].
  destruct (update_each_turns _ _ _ _ _ _ Hnd Hup) as [Hin Hout].
  split; [|exact Hout].
  intros p sq g Hp Hsq. destruct (Hin p sq Hp Hsq) as (g0 & Hp').
  eexists. split; [exact Hp'|]. apply updated_motion.
Qed.

(** X10.  When the collection is the one square [gSquare] points to,
    [update] does what [update_squares] does and [draw] issues the calls
    [draw_squares] issues; [update] leaves [gSquare] as it is. *)
Theorem X10_update_is_update_squares_on_one_square (s : Single G) (square : nat) :
  gSquare s = Some square -> gSquares (multi s) = [square] ->
  option_map multi (update s) = update_squares (multi s)
  /\ draw s = draw_squares (multi s)
  /\ (forall s', update s = Some s' -> gSquare s' = Some square).
Proof. apply update_as_update_squares. Qed.

(** X11.  [reinit_square], called with [gSquare] null or pointing to a live
    square, succeeds: it releases that square, allocates a new 100x100 square
    at the centre of the screen with a drawn velocity and colour, makes
    [gSquare] point to it, and touches no other object. *)
Theorem X11_reinit_square_replaces_the_square (s : Single G) :
  (forall p, is_Some (heap (multi s) !! p) -> p < next_ptr (multi s)) ->
  (forall p, gSquare s = Some p -> is_Some (heap (multi s) !! p)) ->
  exists s' sq,
    reinit_square s = Some s'
    /\ gSquare s' = Some (next_ptr (multi s))
    /\ heap (multi s') !! next_ptr (multi s) = Some sq
    /\ freshly_built sq
    /\ (forall p, gSquare s = Some p -> heap (multi s') !! p = None)
    /\ (forall q, gSquare s <> Some q -> q <> next_ptr (multi s) ->
          heap (multi s') !! q = heap (multi s) !! q).
Proof. apply reinit_square_replaces. Qed.

(** X12.  [close] releases the square of [gSquare] and leaves the pointer
    as it was: after it [update], [draw], [reinit_square] and a second
    [close] are all undefined. *)
Theorem X12_close_leaves_gSquare_dangling (s s' : Single G) (p : nat) :
  gSquare s = Some p -> close s = Some s' ->
  gSquare s' = Some p
  /\ heap (multi s') !! p = None
  /\ update s' = None /\ draw s' = None /\ reinit_square s' = None /\ close s' = None.
Proof. apply close_leaves_dangling. Qed.

(** X13.  [main] returns 0 exactly when it reaches [close]; [gSquare] is
    null there, so [close] releases nothing: the four squares of the
    collection are still allocated when the program ends. *)
Theorem X13_main_exit_keeps_the_squares (sdl : SDL) (frames : list (list SDL_Event))
    (seed : G) :
  SDL_Init_result sdl = 0%Z ->
  ((exists k, main sdl frames seed = Returned 0 k) <-> is_Some (main_exit sdl frames seed))
  /\ forall s, main_exit sdl frames seed = Some s ->
       gSquare s = None
       /\ length (gSquares (multi s)) = 4
       /\ forall p, is_Some (heap (multi s) !! p) <-> p ∈ gSquares (multi s).
Proof.
  intros Hok. unfold main, main_exit, init. rewrite Hok. cbn [Z.eqb negb].
  set (st := init_squares _).
  assert (Hreach : reachable st).
  { apply (reach_init sdl seed). unfold init. rewrite Hok. reflexivity. }
  split.
  - rewrite (main_loop_exit_returns frames 0 st).
    destruct (main_loop_exit frames st) as [st'|]; cbn; split; intros [x Hx]; eauto;
      discriminate.
  - intros s.
    destruct (main_loop_exit frames st) as [st'|] eqn:Hexit; cbn; [|discriminate].
    intros [= <-]. cbn.
    pose proof (main_loop_exit_reachable frames st st' Hreach Hexit) as Hreach'.
    destruct (reachable_full st' Hreach') as (_ & [Hlen Hdom] & _).
    split; [reflexivity|]. split; [exact Hlen|exact Hdom].
Qed.

(** X14.  The sum of two vectors does not depend on their order when its
    components are numbers, and then the sum in the other order has numbers
    for components too; [updatePosition] has the effect of [setPos] with the
    sum of the position and the velocity. *)
Theorem X14_Vec2_add_commutes :
  (forall a b : Vec2,
     is_number (vx (Vec2_add a b)) = true -> is_number (vy (Vec2_add a b)) = true ->
     Vec2_add b a = Vec2_add a b
     /\ is_number (vx (Vec2_add b a)) = true /\ is_number (vy (Vec2_add b a)) = true)
  /\ (forall (sq : Square) (g : G),
        updatePosition sq g = setPos (Vec2_add (m_position sq) (m_velocity sq)) sq g).
Proof.
  split.
  - intros [ax ay] [bx by'] Hx Hy. unfold Vec2_add in *. cbn [vx vy] in *.
    rewrite (add_comm bx ax), (add_comm by' ay). repeat split; assumption.
  - intros sq g. reflexivity.
Qed.

(** X15.  A square whose integrated position touches a wall ends the turn
    at that wall, at the right one when it touches both.  Its horizontal
    velocity has been through the air resistance and the wall damping, and
    through the floor friction when the square is also on the floor and not
    fast enough to bounce.  Its colour is the last one drawn in the turn:
    the wall draws first, from the generator the turn starts with, a floor
    bounce next, the ceiling last. *)
Theorem X15_wall_bounce (w : World) (sq : Square) (g : G) :
  let sq0 := integrate w sq in
  let c := classify sq0 in
  let bounce := onFloor c && gt (vy (m_velocity sq) + gravity w) 0.5 in
  let friction := onFloor c && negb (gt (vy (m_velocity sq) + gravity w) 0.5) in
  let g1 := (get_random_color g).2 in
  let g2 := if bounce then (get_random_color g1).2 else g1 in
  onWall c = true ->
  vx (m_position (updated w sq g))
  = (if onRightWall c then (of_int gScreenWidth - vx (m_size sq))%float else 0%float)
  /\ vx (m_velocity (updated w sq g))
     = (if friction
        then (vx (m_velocity sq) * air_resistance w * - damping w * 0.95)%float
        else (vx (m_velocity sq) * air_resistance w * - damping w)%float)
  /\ m_color (updated w sq g)
     = (if onCeiling c then (get_random_color g2).1
        else if bounce then (get_random_color g1).1
        else (get_random_color g).1)
  /\ generator_after w sq g = (if onCeiling c then (get_random_color g2).2 else g2)
  /\ opaque_rgba (m_color (updated w sq g)).
Proof.
  intros sq0 c bounce friction g1 g2 Hwall.
  assert (Hleft : onRightWall c = false -> onLeftWall c = true).
  { unfold onWall in Hwall. destruct (onRightWall c); [discriminate|]. intros _. exact Hwall. }
  pose proof (get_random_color_opaque g) as Ho.
  pose proof (get_random_color_opaque g1) as Ho1.
  pose proof (get_random_color_opaque g2) as Ho2.
  subst g2 g1 bounce friction.
  rewrite updated_phases, generator_after_phases.
  unfold update_in_phases, wall_correction, floor_correction, ceiling_correction, recolor.
  fold sq0. fold c. rewrite Hwall.
  change (vy (m_velocity sq0)) with (vy (m_velocity sq) + gravity w)%float.
  change (vx (m_velocity sq0)) with (vx (m_velocity sq) * air_resistance w)%float.
  change (m_size sq0) with (m_size sq).
  change (of_int gScreenWidth) with 640%float.
  destruct (get_random_color g) as [c1 g1].
  cbn [fst snd m_velocity m_position m_size m_color vx vy] in *.
  destruct (onFloor c); cbn [andb negb] in *;
    [destruct (gt (vy (m_velocity sq) + gravity w) 0.5); cbn [negb] in *|];
    destruct (onCeiling c); name_draws.
  all: repeat split; try reflexivity; try apply Ho; try apply Ho1; try apply Ho2.
  all: destruct (onRightWall c); [reflexivity|]; rewrite (Hleft eq_refl); reflexivity.
Qed.

(** X16.  A square whose integrated position is on the floor and below the
    ceiling, with a vertical velocity greater than 0.5 after gravity,
    bounces: it ends the turn on the floor line, its vertical velocity times
    [-damping], its horizontal velocity without friction, and with the
    colour drawn by the floor bounce, from the generator the wall bounce
    left when there was one. *)
Theorem X16_floor_bounce (w : World) (sq : Square) (g : G) :
  let sq0 := integrate w sq in
  let c := classify sq0 in
  let g1 := if onWall c then (get_random_color g).2 else g in
  onFloor c = true -> onCeiling c = false ->
  gt (vy (m_velocity sq) + gravity w) 0.5 = true ->
  vy (m_position (updated w sq g)) = (of_int gScreenHeight - vy (m_size sq))%float
  /\ vy (m_velocity (updated w sq g))
     = ((vy (m_velocity sq) + gravity w) * - damping w)%float
  /\ vx (m_velocity (updated w sq g))
     = (if onWall c then (vx (m_velocity sq) * air_resistance w * - damping w)%float
        else (vx (m_velocity sq) * air_resistance w)%float)
  /\ m_color (updated w sq g) = (get_random_color g1).1
  /\ generator_after w sq g = (get_random_color g1).2
  /\ opaque_rgba (m_color (updated w sq g)).
Proof.
  intros sq0 c g1 Hfloor Hceil Hfast.
  pose proof (get_random_color_opaque g1) as Ho. subst g1.
  rewrite updated_phases, generator_after_phases.
  unfold update_in_phases, wall_correction, floor_correction, ceiling_correction, recolor.
  fold sq0. fold c. rewrite Hfloor, Hceil.
  change (vy (m_velocity sq0)) with (vy (m_velocity sq) + gravity w)%float.
  change (vx (m_velocity sq0)) with (vx (m_velocity sq) * air_resistance w)%float.
  change (m_size sq0) with (m_size sq).
  change (of_int gScreenHeight) with 480%float.
  destruct (onWall c); name_draws;
    cbn [m_size m_position m_velocity m_color vx vy fst snd];
    change (vy (m_velocity sq0)) with (vy (m_velocity sq) + gravity w)%float;
    change (vx (m_velocity sq0)) with (vx (m_velocity sq) * air_resistance w)%float;
    change (m_size sq0) with (m_size sq);
    rewrite Hfast; name_draws.
  all: repeat split; try reflexivity; apply Ho.
Qed.

(** X17.  A square whose integrated position touches the ceiling ends the
    turn at y = 0, its vertical velocity at the ceiling check times
    [-damping], with the colour of the last draw of the turn, which is
    opaque. *)
Theorem X17_ceiling_bounce (w : World) (sq : Square) (g : G) :
  let sq0 := integrate w sq in
  let c := classify sq0 in
  let after_wall := wall_correction w c sq0 g in
  let at_ceiling_check := floor_correction w c after_wall.1 after_wall.2 in
  onCeiling c = true ->
  vy (m_position (updated w sq g)) = 0%float
  /\ vy (m_velocity (updated w sq g))
     = (vy (m_velocity at_ceiling_check.1) * - damping w)%float
  /\ m_color (updated w sq g) = (get_random_color at_ceiling_check.2).1
  /\ generator_after w sq g = (get_random_color at_ceiling_check.2).2
  /\ opaque_rgba (m_color (updated w sq g)).
Proof.
  intros sq0 c after_wall at_ceiling_check Hceil.
  rewrite updated_phases, generator_after_phases.
  unfold update_in_phases. fold sq0. fold c.
  subst at_ceiling_check after_wall.
  destruct (wall_correction w c sq0 g) as [sq1 g1]. cbn [fst snd].
  destruct (floor_correction w c sq1 g1) as [sq2 g2]. cbn [fst snd].
  unfold ceiling_correction. rewrite Hceil.
  pose proof (get_random_color_opaque g2) as Hc.
  unfold recolor. destruct (get_random_color g2) as [c3 g3]. cbn [fst snd] in *.
  repeat split; try reflexivity; apply Hc.
Qed.

(** X18.  [get_random_velocity] draws twice, the horizontal component
    first, and returns two whole numbers between -20 and 20 as doubles: both
    components compare within [-20, 20]. *)
Theorem X18_random_velocity_is_whole (g : G) :
  exists x y : Z,
    (-20 <= x <= 20)%Z /\ (-20 <= y <= 20)%Z
    /\ x = (get_random_int (-20) 20 g).1
    /\ y = (get_random_int (-20) 20 (get_random_int (-20) 20 g).2).1
    /\ (get_random_velocity g).1 = mkVec2 (of_int x) (of_int y)
    /\ in_velocity_range (get_random_velocity g).1.
Proof.
  pose proof (get_random_velocity_range g) as Hrange. revert Hrange.
  unfold get_random_velocity, get_random_int.
  pose proof (uniform_int_range (-20) 20 g) as Hx.
  destruct (uniform_int (-20) 20 g) as [x g1]. cbn [fst snd] in *.
  pose proof (uniform_int_range (-20) 20 g1) as Hy.
  destruct (uniform_int (-20) 20 g1) as [y g2].
  cbn [fst snd] in *. intros Hrange.
  exists x, y. repeat split; try reflexivity; try lia; apply Hrange.
Qed.

(** X19.  The constructors of [Color] store bytes whatever [int]s they are
    given, the three-argument one builds an opaque colour, and building a
    colour again from the channels of a colour gives the same colour. *)
Theorem X19_Color_constructors_store_bytes (r g b a : Z) :
  is_byte (red (Color_rgba r g b a)) /\ is_byte (green (Color_rgba r g b a))
  /\ is_byte (blue (Color_rgba r g b a)) /\ is_byte (alpha (Color_rgba r g b a))
  /\ opaque_rgba (Color_rgb r g b)
  /\ Color_rgba (red (Color_rgba r g b a)) (green (Color_rgba r g b a))
                (blue (Color_rgba r g b a)) (alpha (Color_rgba r g b a))
     = Color_rgba r g b a.
Proof.
  unfold Color_rgb, Color_rgba, opaque_rgba. cbn [red green blue alpha].
  pose proof (to_Uint8_byte r). pose proof (to_Uint8_byte g).
  pose proof (to_Uint8_byte b). pose proof (to_Uint8_byte a).
  repeat split; try assumption; try apply to_Uint8_byte.
  unfold to_Uint8. rewrite !Z.mod_mod by lia. reflexivity.
Qed.

End Further.

(** * Instances of the further properties *)

(** The collection [main] builds before its loop. *)
Definition first_state : Globals Z :=
  init_squares (init (mkSDL 0 (Some 1) (Some 2)) (globals_at_start 42%Z)).2.

(** One allocated default square, pointed to by [gSquare] and in the
    collection. *)
Definition one_square : Single Z :=
  mkSingle (mkGlobals None None [0] World_default Color_default
                      {[0 := Square_default]} 1 42%Z)
           (Some 0).

Lemma first_state_reachable : reachable first_state.
Proof. apply (reach_init (mkSDL 0 (Some 1) (Some 2)) 42%Z). reflexivity. Qed.

(** X1, at a square in the centre with the largest drawn velocity. *)
Lemma X1_on_screen_witness :
  let sq := mkSquare (mkVec2 100 100) (mkVec2 320 240) (mkVec2 (-20) 20) Color_default in
  on_screen sq /\ on_screen (updated World_default sq 7%Z).
Proof.
  split; [repeat split; reflexivity|].
  apply X1_turn_keeps_square_on_screen. repeat split; reflexivity.
Defined.

(** X2, at the first state of the loop. *)
Lemma X2_on_screen_witness :
  reachable first_state
  /\ gWorld first_state = World_default
  /\ forall p, p ∈ gSquares first_state ->
       exists sq, heap first_state !! p = Some sq /\ on_screen sq.
Proof.
  split; [exact first_state_reachable|].
  exact (X2_squares_stay_on_screen first_state first_state_reachable).
Defined.


(** X4, at the first state of the loop. *)
Lemma X4_free_store_witness :
  reachable first_state
  /\ length (gSquares first_state) = 4
  /\ NoDup (gSquares first_state)
  /\ forall p, is_Some (heap first_state !! p) <-> p ∈ gSquares first_state.
Proof.
  split; [exact first_state_reachable|].
  exact (X4_free_store_is_the_collection first_state first_state_reachable).
Defined.


(** X6, for two frames without a quit event. *)
Lemma X6_running_witness :
  let sdl := mkSDL 0 (Some 1) (Some 2) in
  let frames := [[SDL_other_event]; [SDL_KEYDOWN SDLK_SPACE]] in
  (SDL_Init_result sdl = 0%Z /\ Forall (fun events => SDL_QUIT ∉ events) frames)
  /\ exists st, main sdl frames 42%Z = Running 2 st.
Proof.
  assert (Hno : Forall (fun events : list SDL_Event => SDL_QUIT ∉ events)
                  [[SDL_other_event]; [SDL_KEYDOWN SDLK_SPACE]]) by no_quit.
  split; [split; [reflexivity|exact Hno]|].
  exact (X6_main_keeps_running_without_quit (mkSDL 0 (Some 1) (Some 2)) 42%Z _
           eq_refl Hno).
Defined.

(** X8, at the first state of the loop, for a quit between two resets. *)
Lemma X8_events_witness :
  let events := [SDL_KEYDOWN SDLK_SPACE; SDL_QUIT; SDL_KEYDOWN SDLK_SPACE] in
  reachable first_state
  /\ exists st',
       poll_events events false first_state = Some (bool_decide (SDL_QUIT ∈ events), st')
       /\ next_ptr st' = next_ptr first_state + 4 * resets events
       /\ (resets events = 0 -> st' = first_state)
       /\ (0 < resets events ->
           gSquares st' = seq (next_ptr first_state + 4 * (resets events - 1)) 4).
Proof.
  split; [exact first_state_reachable|].
  exact (X8_events_are_drained first_state _ first_state_reachable).
Defined.

(** X9, at the first state of the loop. *)
Lemma X9_independence_witness :
  NoDup (gSquares first_state)
  /\ exists st',
       update_squares first_state = Some st'
       /\ (forall p sq (g : Z), p ∈ gSquares first_state ->
             heap first_state !! p = Some sq ->
             exists sq', heap st' !! p = Some sq'
               /\ same_motion sq' (updated (gWorld first_state) sq g))
       /\ (forall q, q ∉ gSquares first_state -> heap st' !! q = heap first_state !! q).
Proof.
  pose proof (reachable_invariant first_state first_state_reachable) as [Hwf _].
  destruct (update_squares_spec first_state Hwf) as (st' & Hrun & _).
  split; [apply Hwf|]. exists st'. split; [exact Hrun|].
  exact (X9_turns_are_independent first_state st' (proj1 Hwf) Hrun).
Defined.

(** X10, at the one-square state. *)
Lemma X10_single_witness :
  (gSquare one_square = Some 0 /\ gSquares (multi one_square) = [0])
  /\ option_map multi (update one_square) = update_squares (multi one_square)
  /\ draw one_square = draw_squares (multi one_square)
  /\ (forall s', update one_square = Some s' -> gSquare s' = Some 0).
Proof.
  split; [split; reflexivity|].
  exact (X10_update_is_update_squares_on_one_square one_square 0 eq_refl eq_refl).
Defined.

Lemma one_square_bound :
  forall p, is_Some (heap (multi one_square) !! p) -> p < next_ptr (multi one_square).
Proof.
  intros p [sq Hsq]. cbn in *. apply lookup_singleton_Some in Hsq as [<- _]. lia.
Qed.

Lemma one_square_live :
  forall p, gSquare one_square = Some p -> is_Some (heap (multi one_square) !! p).
Proof. intros p [= <-]. cbn. rewrite lookup_singleton_eq. eauto. Qed.

(** X11, at the one-square state. *)
Lemma X11_reinit_square_witness :
  ((forall p, is_Some (heap (multi one_square) !! p) -> p < next_ptr (multi one_square))
   /\ (forall p, gSquare one_square = Some p -> is_Some (heap (multi one_square) !! p)))
  /\ exists s' sq,
       reinit_square one_square = Some s'
       /\ gSquare s' = Some (next_ptr (multi one_square))
       /\ heap (multi s') !! next_ptr (multi one_square) = Some sq
       /\ freshly_built sq
       /\ (forall p, gSquare one_square = Some p -> heap (multi s') !! p = None)
       /\ (forall q, gSquare one_square <> Some q -> q <> next_ptr (multi one_square) ->
             heap (multi s') !! q = heap (multi one_square) !! q).
Proof.
  split; [split; [exact one_square_bound|exact one_square_live]|].
  exact (X11_reinit_square_replaces_the_square one_square one_square_bound one_square_live).
Defined.

(** X12, at the one-square state. *)
Lemma X12_close_witness :
  gSquare one_square = Some 0
  /\ exists s',
       close one_square = Some s'
       /\ gSquare s' = Some 0
       /\ heap (multi s') !! 0 = None
       /\ update s' = None /\ draw s' = None /\ reinit_square s' = None /\ close s' = None.
Proof.
  split; [reflexivity|]. eexists. split; [reflexivity|].
  exact (X12_close_leaves_gSquare_dangling one_square _ 0 eq_refl eq_refl).
Defined.

(** X13, for a run that quits in its first frame. *)
Lemma X13_main_exit_witness :
  let sdl := mkSDL 0 (Some 1) (Some 2) in
  SDL_Init_result sdl = 0%Z
  /\ ((exists k, main sdl [[SDL_QUIT]] 42%Z = Returned 0 k)
      <-> is_Some (main_exit sdl [[SDL_QUIT]] 42%Z))
  /\ forall s, main_exit sdl [[SDL_QUIT]] 42%Z = Some s ->
       gSquare s = None
       /\ length (gSquares (multi s)) = 4
       /\ forall p, is_Some (heap (multi s) !! p) <-> p ∈ gSquares (multi s).
Proof.
  split; [reflexivity|].
  exact (X13_main_exit_keeps_the_squares (mkSDL 0 (Some 1) (Some 2)) [[SDL_QUIT]] 42%Z
           eq_refl).
Defined.

(** X14, at two vectors with finite components. *)
Lemma X14_Vec2_add_witness :
  let a := mkVec2 320 240 in
  let b := mkVec2 (-7) 12.5 in
  (is_number (vx (Vec2_add a b)) = true /\ is_number (vy (Vec2_add a b)) = true)
  /\ Vec2_add b a = Vec2_add a b
  /\ is_number (vx (Vec2_add b a)) = true /\ is_number (vy (Vec2_add b a)) = true.
Proof.
  split; [split; reflexivity|].
  exact (proj1 (X14_Vec2_add_commutes (G := Z)) (mkVec2 320 240) (mkVec2 (-7) 12.5)
           eq_refl eq_refl).
Defined.

(** X15, at a square that slides on the floor into the right wall: the wall
    damping and the floor friction both act, and the wall colour stays. *)
Lemma X15_wall_bounce_witness :
  let w := World_default in
  let sq := mkSquare (mkVec2 100 100) (mkVec2 560 380) (mkVec2 5 0) Color_default in
  let g := 7%Z in
  let sq0 := integrate w sq in
  let c := classify sq0 in
  let bounce := onFloor c && gt (vy (m_velocity sq) + gravity w) 0.5 in
  let friction := onFloor c && negb (gt (vy (m_velocity sq) + gravity w) 0.5) in
  let g1 := (get_random_color g).2 in
  let g2 := if bounce then (get_random_color g1).2 else g1 in
  onWall c = true
  /\ vx (m_position (updated w sq g))
     = (if onRightWall c then (of_int gScreenWidth - vx (m_size sq))%float else 0%float)
  /\ vx (m_velocity (updated w sq g))
     = (if friction
        then (vx (m_velocity sq) * air_resistance w * - damping w * 0.95)%float
        else (vx (m_velocity sq) * air_resistance w * - damping w)%float)
  /\ m_color (updated w sq g)
     = (if onCeiling c then (get_random_color g2).1
        else if bounce then (get_random_color g1).1
        else (get_random_color g).1)
  /\ generator_after w sq g = (if onCeiling c then (get_random_color g2).2 else g2)
  /\ opaque_rgba (m_color (updated w sq g)).
Proof.
  split; [reflexivity|].
  exact (X15_wall_bounce World_default
           (mkSquare (mkVec2 100 100) (mkVec2 560 380) (mkVec2 5 0) Color_default) 7%Z
           eq_refl).
Defined.

(** X16, at a square that falls onto the floor away from the walls. *)
Lemma X16_floor_bounce_witness :
  let w := World_default in
  let sq := mkSquare (mkVec2 100 100) (mkVec2 270 370) (mkVec2 0 15) Color_default in
  let g := 7%Z in
  let sq0 := integrate w sq in
  let c := classify sq0 in
  let g1 := if onWall c then (get_random_color g).2 else g in
  (onFloor c = true /\ onCeiling c = false
   /\ gt (vy (m_velocity sq) + gravity w) 0.5 = true)
  /\ vy (m_position (updated w sq g)) = (of_int gScreenHeight - vy (m_size sq))%float
  /\ vy (m_velocity (updated w sq g))
     = ((vy (m_velocity sq) + gravity w) * - damping w)%float
  /\ vx (m_velocity (updated w sq g))
     = (if onWall c then (vx (m_velocity sq) * air_resistance w * - damping w)%float
        else (vx (m_velocity sq) * air_resistance w)%float)
  /\ m_color (updated w sq g) = (get_random_color g1).1
  /\ generator_after w sq g = (get_random_color g1).2
  /\ opaque_rgba (m_color (updated w sq g)).
Proof.
  split; [repeat split; reflexivity|].
  exact (X16_floor_bounce World_default
           (mkSquare (mkVec2 100 100) (mkVec2 270 370) (mkVec2 0 15) Color_default) 7%Z
           eq_refl eq_refl eq_refl).
Defined.

(** X17, at a square that rises to the ceiling. *)
Lemma X17_ceiling_bounce_witness :
  let sq := mkSquare (mkVec2 100 100) (mkVec2 270 5) (mkVec2 0 (-15)) Color_default in
  let sq0 := integrate World_default sq in
  let c := classify sq0 in
  let after_wall := wall_correction World_default c sq0 7%Z in
  let at_ceiling_check := floor_correction World_default c after_wall.1 after_wall.2 in
  onCeiling c = true
  /\ vy (m_position (updated World_default sq 7%Z)) = 0%float
  /\ vy (m_velocity (updated World_default sq 7%Z))
     = (vy (m_velocity at_ceiling_check.1) * - damping World_default)%float
  /\ m_color (updated World_default sq 7%Z) = (get_random_color at_ceiling_check.2).1
  /\ generator_after World_default sq 7%Z = (get_random_color at_ceiling_check.2).2
  /\ opaque_rgba (m_color (updated World_default sq 7%Z)).
Proof.
  split; [reflexivity|].
  exact (X17_ceiling_bounce World_default
           (mkSquare (mkVec2 100 100) (mkVec2 270 5) (mkVec2 0 (-15)) Color_default) 7%Z
           eq_refl).
Defined.

(** * Runs *)

Example run_with_reset_then_quit :
  main (mkSDL 0 (Some 1) (Some 2))
       [[SDL_other_event]; [SDL_KEYDOWN SDLK_SPACE; SDL_QUIT]; []] 42%Z
  = Returned 0 2.
Proof. vm_compute. reflexivity. Qed.

Example run_without_sdl :
  main (mkSDL (-1) None None) [[SDL_QUIT]] 42%Z = Returned 1 0.
Proof. reflexivity. Qed.

Example run_without_window :
  main (mkSDL 0 None None) [[]; [SDL_QUIT]] 42%Z = Returned 0 2.
Proof. vm_compute. reflexivity. Qed.

Example start_is_reachable :
  reachable (init_squares (init (mkSDL 0 (Some 1) (Some 2)) (globals_at_start 42%Z)).2).
Proof. apply (reach_init (mkSDL 0 (Some 1) (Some 2)) 42%Z). reflexivity. Qed.

Example first_squares :
  gSquares (init_squares (globals_at_start 42%Z)) = [0; 1; 2; 3].
Proof. reflexivity. Qed.

Example sliding_square_turn :
  updated World_default
    (mkSquare (mkVec2 100 100) (mkVec2 560 380) (mkVec2 5 0) Color_default) 7%Z
  = mkSquare (mkVec2 100 100) (mkVec2 540 380)
             (mkVec2 (5 * 0.995 * - 0.9 * 0.95) 0)
             (get_random_color (G := Z) 7%Z).1.
Proof. vm_compute. reflexivity. Qed.

(** A square as tall as the screen at rest at y = 0, and a taller one at
    rest above the ceiling line with a velocity of negative zeros: the
    integrated position is below the ceiling line, and a turn leaves both
    where they are. *)
Example squares_of_the_height_of_the_screen :
  let tall := mkSquare (mkVec2 100 480) (mkVec2 270 0) (mkVec2 0 0) Color_default in
  let taller := mkSquare (mkVec2 100 480.25) (mkVec2 270 (-0.25)) (mkVec2 (-0) (-0))
                         Color_default in
  onCeiling (classify (integrate World_default tall)) = false
  /\ updated World_default tall 7%Z = tall
  /\ onCeiling (classify (integrate World_default taller)) = false
  /\ m_position (updated World_default taller 7%Z) = m_position taller
  /\ m_velocity (updated World_default taller 7%Z) = mkVec2 (-0) 0
  /\ (vy (m_velocity (updated World_default taller 7%Z)) =? vy (m_velocity taller))%float
     = true.
Proof. vm_compute. repeat split; reflexivity. Qed.
